(** * GX2 command-buffer pool (libdecaf, [gx2_cbpool.cpp])

    A shallow embedding of the command-buffer pool of decaf-emu's GX2
    module: the ring of 32-bit words behind [allocateFromPool],
    [returnToPool] and [freeToPool], the descriptor free list, the lease
    manager and the per-core active buffer, followed by the properties
    established about them.

    Conventions.
    - A [uint32_t *] is a [Z] counting 32-bit words (so [p + n] is the C
      pointer sum); [nullptr] is [0].  Pointer arithmetic is exact: the
      pool is a valid object, so sums and differences of its pointers
      do not overflow.
    - A [uint32_t] is a [Z]; every place where the C code truncates to 32
      bits is written [u32].
    - [decaf_check] and [decaf_abort] end the process; a function that
      may reach one returns [None] (or [Aborted]) there. *)

From Stdlib Require Import ZArith Lia Bool String.
From stdpp Require Import base option list gmap.
From Equations Require Import Equations.

Local Open Scope Z_scope.

(** ** Machine words *)

Definition u32 (z : Z) : Z := z mod 2 ^ 32.

Definition nullptr : Z := 0.

(** Modelled from the spec: [byte_swap] of common/byte_swap.h is not among
    the sources; the filler word is "stored in device byte order", i.e. the
    four bytes of the 32-bit word are reversed. *)
Definition byte_swap (w : Z) : Z :=
  Z.lor (Z.shiftl (Z.land w 0xFF) 24)
    (Z.lor (Z.shiftl (Z.land (Z.shiftr w 8) 0xFF) 16)
       (Z.lor (Z.shiftl (Z.land (Z.shiftr w 16) 0xFF) 8)
          (Z.land (Z.shiftr w 24) 0xFF))).

(** Modelled from the spec: [align_up] of common/align.h is not among the
    sources; it rounds [value] up to the next multiple of the power of two
    [alignment], and its result is a [uint32_t] like its argument. *)
Definition align_up (value alignment : Z) : Z :=
  u32 (Z.land (value + (alignment - 1)) (Z.lnot (alignment - 1))).

(** ** The ring region

    The five file-scope variables [sBufferPoolBase], [sBufferPoolEnd],
    [sBufferPoolHeadPtr], [sBufferPoolTailPtr] and [sBufferPoolSkipped]. *)

Record BufferPool := mkBufferPool {
  sBufferPoolBase : Z;
  sBufferPoolEnd : Z;
  sBufferPoolHeadPtr : Z;
  sBufferPoolTailPtr : Z;
  sBufferPoolSkipped : Z
}.

Definition set_head (p : BufferPool) (h : Z) : BufferPool :=
  mkBufferPool (sBufferPoolBase p) (sBufferPoolEnd p) h
    (sBufferPoolTailPtr p) (sBufferPoolSkipped p).

Definition set_tail (p : BufferPool) (t : Z) : BufferPool :=
  mkBufferPool (sBufferPoolBase p) (sBufferPoolEnd p) (sBufferPoolHeadPtr p)
    t (sBufferPoolSkipped p).

Definition set_skipped (p : BufferPool) (s : Z) : BufferPool :=
  mkBufferPool (sBufferPoolBase p) (sBufferPoolEnd p) (sBufferPoolHeadPtr p)
    (sBufferPoolTailPtr p) s.

(** The tail of [allocateFromPool]: grant [min(0x20000, availableSize)]
    words at the head and advance the head. *)
Definition grantFromHead (p : BufferPool) (availableSize : Z)
  : option (BufferPool * Z * Z) :=
  let allocatedSize := Z.min 0x20000 availableSize in
  let allocatedBuffer := sBufferPoolHeadPtr p in
  Some (set_head p (sBufferPoolHeadPtr p + allocatedSize),
        allocatedBuffer, allocatedSize).

(** [allocateFromPool(wantedSize, allocatedSize)].  The result is the new
    ring, the returned pointer ([nullptr] when there is no room) and the
    value left in the reference parameter [allocatedSize]; [None] is
    [decaf_abort] or a failed [decaf_check]. *)
Definition allocateFromPool (p : BufferPool) (wantedSize allocatedSize : Z)
  : option (BufferPool * Z * Z) :=
  let wantedSize := Z.max 0x100 wantedSize in
  if sBufferPoolEnd p - sBufferPoolBase p <? wantedSize then None
  else if sBufferPoolTailPtr p =? nullptr then
    if sBufferPoolHeadPtr p =? sBufferPoolBase p then
      let availableSize := u32 (sBufferPoolEnd p - sBufferPoolBase p) in
      grantFromHead (set_tail p (sBufferPoolHeadPtr p)) availableSize
    else None
  else if sBufferPoolHeadPtr p <? sBufferPoolTailPtr p then
    let availableSize := u32 (sBufferPoolTailPtr p - sBufferPoolHeadPtr p) in
    if availableSize <? wantedSize then Some (p, nullptr, allocatedSize)
    else grantFromHead p availableSize
  else
    let availableSize := u32 (sBufferPoolEnd p - sBufferPoolHeadPtr p) in
    if availableSize <? wantedSize then
      let availableSize := u32 (sBufferPoolTailPtr p - sBufferPoolBase p) in
      if availableSize <? wantedSize then Some (p, nullptr, allocatedSize)
      else
        let p := set_skipped p (u32 (sBufferPoolEnd p - sBufferPoolHeadPtr p)) in
        let p := set_head p (sBufferPoolBase p) in
        grantFromHead p availableSize
    else grantFromHead p availableSize.

(** [returnToPool(buffer, usedSize, originalSize)]. *)
Definition returnToPool (p : BufferPool) (buffer usedSize originalSize : Z)
  : option BufferPool :=
  if originalSize <? usedSize then None
  else if originalSize =? usedSize then Some p
  else if sBufferPoolHeadPtr p =? buffer + originalSize then
    Some (set_head p (buffer + usedSize))
  else None.

(** The first statement of [freeToPool]: a tail that has reached the wrap
    gap jumps back to the base. *)
Definition consumeWrapGap (p : BufferPool) : BufferPool :=
  if sBufferPoolTailPtr p + sBufferPoolSkipped p =? sBufferPoolEnd p then
    set_tail (set_skipped p 0) (sBufferPoolBase p)
  else p.

(** [freeToPool(buffer, size)]. *)
Definition freeToPool (p : BufferPool) (buffer size : Z) : option BufferPool :=
  let p := consumeWrapGap p in
  if sBufferPoolTailPtr p =? buffer then
    let p := set_tail p (sBufferPoolTailPtr p + size) in
    if sBufferPoolTailPtr p =? sBufferPoolHeadPtr p then
      Some (set_tail (set_head p (sBufferPoolBase p)) nullptr)
    else Some p
  else None.

(** The empty ring over [[base, base + size)], as the file-scope
    initialisers and [initCommandBufferPool] leave it. *)
Definition emptyPool (base size : Z) : BufferPool :=
  mkBufferPool base (base + size) base nullptr 0.


(** ** Sequences of pool calls *)

(** A run of [allocateFromPool] calls, one per requested size, each of
    which has to hand out a buffer; the result lists the buffers with their
    granted sizes, oldest first. *)
Fixpoint allocateAll (p : BufferPool) (wanted : list Z)
  : option (BufferPool * list (Z * Z)) :=
  match wanted with
  | [] => Some (p, [])
  | w :: wanted =>
      match allocateFromPool p w 0 with
      | Some (p, buf, n) =>
          if buf =? nullptr then None
          else
            match allocateAll p wanted with
            | Some (p, bufs) => Some (p, (buf, n) :: bufs)
            | None => None
            end
      | None => None
      end
  end.

(** A run of [freeToPool] calls on the listed buffers, in order. *)
Fixpoint freeAll (p : BufferPool) (bufs : list (Z * Z)) : option BufferPool :=
  match bufs with
  | [] => Some p
  | (buf, n) :: bufs =>
      match freeToPool p buf n with
      | Some p => freeAll p bufs
      | None => None
      end
  end.

(** ** The ring and its live allocations

    The allocations that were handed out and not yet retired, oldest
    first, are not stored by the code; they are the ghost state against
    which the ring is judged. *)

(** [tiles l a b]: the ranges of [l] are non-empty and cover [[a, b)]
    back to back, in order. *)
Fixpoint tiles (l : list (Z * Z)) (a b : Z) : Prop :=
  match l with
  | [] => a = b
  | (buf, n) :: l => buf = a ∧ 0 < n ∧ tiles l (a + n) b
  end.

(** The pool is a real region of fewer than 2^32 words. *)
Definition pool_region (p : BufferPool) : Prop :=
  0 < sBufferPoolBase p
  ∧ 0 ≤ sBufferPoolEnd p - sBufferPoolBase p < 2 ^ 32.

(** A consistent ring: empty, or the live allocations cover [[tail, head)],
    or, after a wrap, first [[tail, end - skipped)] and then
    [[base, head)]. *)
Definition pool_wf (p : BufferPool) (live : list (Z * Z)) : Prop :=
  pool_region p
  ∧ ((sBufferPoolTailPtr p = nullptr
      ∧ sBufferPoolHeadPtr p = sBufferPoolBase p
      ∧ sBufferPoolSkipped p = 0
      ∧ live = [])
     ∨ (sBufferPoolSkipped p = 0
        ∧ sBufferPoolBase p ≤ sBufferPoolTailPtr p
        ∧ sBufferPoolHeadPtr p ≤ sBufferPoolEnd p
        ∧ tiles live (sBufferPoolTailPtr p) (sBufferPoolHeadPtr p))
     ∨ (∃ l1 l2,
          live = l1 ++ l2
          ∧ 0 ≤ sBufferPoolSkipped p
          ∧ sBufferPoolBase p < sBufferPoolEnd p - sBufferPoolSkipped p
          ∧ sBufferPoolHeadPtr p ≤ sBufferPoolTailPtr p
          ∧ tiles l1 (sBufferPoolTailPtr p)
              (sBufferPoolEnd p - sBufferPoolSkipped p)
          ∧ tiles l2 (sBufferPoolBase p) (sBufferPoolHeadPtr p))).

(** One call of the pool interface, together with what it does to the
    live allocations: [allocateFromPool] appends the buffer it hands out,
    [returnToPool] shrinks the latest allocation (and drops it when nothing
    of it was used: such a buffer is never queued), [freeToPool] retires
    the oldest one.  A call that aborts makes no step. *)
Inductive pool_step : BufferPool * list (Z * Z) → BufferPool * list (Z * Z) → Prop :=
| step_allocate p live wanted allocatedSize p' buf n :
    allocateFromPool p wanted allocatedSize = Some (p', buf, n) →
    buf ≠ nullptr →
    pool_step (p, live) (p', live ++ [(buf, n)])
| step_no_room p live wanted allocatedSize p' n :
    allocateFromPool p wanted allocatedSize = Some (p', nullptr, n) →
    pool_step (p, live) (p', live)
| step_return p live buf used original p' :
    0 ≤ used ≤ original →
    returnToPool p buf used original = Some p' →
    pool_step (p, live ++ [(buf, original)])
      (p', live ++ (if used =? 0 then [] else [(buf, used)]))
| step_free p live buf n p' :
    freeToPool p buf n = Some p' →
    pool_step (p, (buf, n) :: live) (p', live).

(** The state of the ring that an allocation misreads: the head has caught
    up with the tail while allocations are live. *)
Definition ring_full (p : BufferPool) (live : list (Z * Z)) : Prop :=
  sBufferPoolHeadPtr p = sBufferPoolTailPtr p ∧ live ≠ [].

(** A step other than an allocation from a full ring (only an allocation
    lengthens the list of live allocations). *)
Definition guarded_step (s1 s2 : BufferPool * list (Z * Z)) : Prop :=
  pool_step s1 s2
  ∧ (ring_full s1.1 s1.2 → (length s2.2 ≤ length s1.2)%nat).

(** The condition on the ring as the specification words it
    ([head ∈ [base, end)]), and as the code keeps it. *)
Definition pool_bounds_claimed (p : BufferPool) : Prop :=
  sBufferPoolTailPtr p = nullptr
  ∨ (sBufferPoolTailPtr p + sBufferPoolSkipped p ≤ sBufferPoolEnd p
     ∧ sBufferPoolBase p ≤ sBufferPoolHeadPtr p < sBufferPoolEnd p).

Definition pool_bounds (p : BufferPool) : Prop :=
  sBufferPoolTailPtr p = nullptr
  ∨ (sBufferPoolTailPtr p + sBufferPoolSkipped p ≤ sBufferPoolEnd p
     ∧ sBufferPoolBase p ≤ sBufferPoolHeadPtr p ≤ sBufferPoolEnd p).

(** ** Buffer descriptors and their padding *)

(** Modelled from the spec: [pm4::Buffer] is declared in gpu/pm4_buffer.h,
    which is not among the sources; its fields are the descriptor's
    [buffer], [curSize], [maxSize], [displayList], [submitTime] and the
    free-list link [next].  A [pm4::Buffer *] is [Some] of the index of
    the object in the heap, or [None] for [nullptr]. *)
Record Buffer := mkBuffer {
  displayList : bool;
  submitTime : Z;
  buffer : Z;
  curSize : Z;
  maxSize : Z;
  next : option nat
}.

Definition set_curSize (b : Buffer) (n : Z) : Buffer :=
  mkBuffer (displayList b) (submitTime b) (buffer b) n (maxSize b) (next b).

Definition set_maxSize (b : Buffer) (n : Z) : Buffer :=
  mkBuffer (displayList b) (submitTime b) (buffer b) (curSize b) n (next b).

Definition set_next (b : Buffer) (n : option nat) : Buffer :=
  mkBuffer (displayList b) (submitTime b) (buffer b) (curSize b) (maxSize b) n.

(** [round_up c g]: [c] rounded up to the next multiple of [g], as a
    mathematical integer. *)
Definition round_up (c g : Z) : Z := g * ((c + (g - 1)) / g).

(** The word written by [padCommandBuffer]. *)
Definition fillerWord : Z := byte_swap 0xBEEF2929.

(** The loop of [padCommandBuffer]:
    [while (curSize < alignedSize) buffer[curSize++] = byte_swap(0xBEEF2929)].
    Guest memory is a finite map from word pointers to words; [alignedSize]
    is a [uint32_t] local, hence read through [u32]. *)
Equations? padLoop (alignedSize : Z) (b : Buffer) (m : gmap Z Z)
  : Buffer * gmap Z Z by wf (Z.to_nat (u32 alignedSize - curSize b)) lt :=
  padLoop alignedSize b m with decide (curSize b < u32 alignedSize) => {
    | left _ :=
        padLoop alignedSize (set_curSize b (u32 (curSize b + 1)))
          (<[buffer b + curSize b := fillerWord]> m);
    | right _ := (b, m) }.
Proof.
  simpl. unfold u32 in *.
  pose proof (Z.mod_pos_bound alignedSize (2 ^ 32) ltac:(lia)).
  pose proof (Z.mod_pos_bound (curSize b + 1) (2 ^ 32) ltac:(lia)).
  destruct (Z_lt_le_dec (curSize b) 0) as [Hneg | Hpos]; [lia |].
  rewrite (Z.mod_small (curSize b + 1)) by lia. lia.
Qed.

(** [padCommandBuffer(buffer)]; [None] is the failed [decaf_check]. *)
Definition padCommandBuffer (b : Buffer) (m : gmap Z Z)
  : option (Buffer * gmap Z Z) :=
  let alignedSize := align_up (curSize b) (32 / 4) in
  if alignedSize <=? maxSize b then Some (padLoop alignedSize b m) else None.

(** ** Process state *)

Record State := mkState {
  sBufferItemPool : option nat;
  sBufferPoolLeased : bool;
  sBufferPool : BufferPool;
  sActiveBuffer : list (option nat);
  heap : list Buffer;
  memory : gmap Z Z;
  gpuQueue : list nat;
  gLog : list string
}.

Definition set_sBufferItemPool (st : State) (x : option nat) : State :=
  mkState x (sBufferPoolLeased st) (sBufferPool st) (sActiveBuffer st)
    (heap st) (memory st) (gpuQueue st) (gLog st).

Definition set_sBufferPoolLeased (st : State) (x : bool) : State :=
  mkState (sBufferItemPool st) x (sBufferPool st) (sActiveBuffer st)
    (heap st) (memory st) (gpuQueue st) (gLog st).

Definition set_sBufferPool (st : State) (x : BufferPool) : State :=
  mkState (sBufferItemPool st) (sBufferPoolLeased st) x (sActiveBuffer st)
    (heap st) (memory st) (gpuQueue st) (gLog st).

Definition set_sActiveBuffer (st : State) (core : nat) (x : option nat) : State :=
  mkState (sBufferItemPool st) (sBufferPoolLeased st) (sBufferPool st)
    (<[core := x]> (sActiveBuffer st)) (heap st) (memory st) (gpuQueue st)
    (gLog st).

Definition set_heap (st : State) (x : list Buffer) : State :=
  mkState (sBufferItemPool st) (sBufferPoolLeased st) (sBufferPool st)
    (sActiveBuffer st) x (memory st) (gpuQueue st) (gLog st).

Definition set_memory (st : State) (x : gmap Z Z) : State :=
  mkState (sBufferItemPool st) (sBufferPoolLeased st) (sBufferPool st)
    (sActiveBuffer st) (heap st) x (gpuQueue st) (gLog st).

Definition set_gpuQueue (st : State) (x : list nat) : State :=
  mkState (sBufferItemPool st) (sBufferPoolLeased st) (sBufferPool st)
    (sActiveBuffer st) (heap st) (memory st) x (gLog st).

Definition set_gLog (st : State) (x : list string) : State :=
  mkState (sBufferItemPool st) (sBufferPoolLeased st) (sBufferPool st)
    (sActiveBuffer st) (heap st) (memory st) (gpuQueue st) x.

(** [coreinit::CoreCount]; [sActiveBuffer] starts as three null slots. *)
Definition CoreCount : nat := 3.

(** The state set up by the file-scope initialisers. *)
Definition initialState : State :=
  mkState None false (mkBufferPool nullptr nullptr nullptr nullptr 0)
    (replicate CoreCount None) [] ∅ [] [].

(** ** Outcomes

    A call either returns, ends the process, or is still blocked in
    [GX2WaitTimeStamp] when the model stops following it. *)

Inductive Outcome (A : Type) : Type :=
| Done (a : A)
| Aborted
| Stalled.
Arguments Done {A} a.
Arguments Aborted {A}.
Arguments Stalled {A}.

#[export] Instance Outcome_ret : MRet Outcome := @Done.

#[export] Instance Outcome_bind : MBind Outcome := λ A B f m,
  match m with
  | Done a => f a
  | Aborted => Aborted
  | Stalled => Stalled
  end.

(** [decaf_check]-style partiality of the ring operations. *)
Definition checked {A} (o : option A) : Outcome A :=
  match o with
  | Some a => Done a
  | None => Aborted
  end.

(** [sActiveBuffer[core]]. *)
Definition activeBuffer (st : State) (core : nat) : option nat :=
  default None (sActiveBuffer st !! core).

(** [*cb] for a descriptor pointer; a pointer outside the heap is a wild
    pointer, and the process does not survive it. *)
Definition deref (st : State) (cb : nat) : Outcome Buffer :=
  checked (heap st !! cb).

Definition store (st : State) (cb : nat) (b : Buffer) : State :=
  set_heap st (<[cb := b]> (heap st)).

(** ** The descriptor free list

    [sBufferItemPool] is an atomic stack linked through [next]; a single
    thread runs each operation here, so every compare-and-swap succeeds at
    its first attempt. *)

(** [allocateBufferObj()]: pop the free list, or [new pm4::Buffer()]. *)
Definition allocateBufferObj (st : State) : Outcome (State * nat) :=
  match sBufferItemPool st with
  | Some cb =>
      b ← deref st cb;
      mret (set_sBufferItemPool st (next b), cb)
  | None =>
      mret (set_heap st (heap st ++ [mkBuffer false 0 nullptr 0 0 None]),
            length (heap st))
  end.

(** [freeBufferObj(cb)]: push on the free list. *)
Definition freeBufferObj (st : State) (cb : nat) : Outcome State :=
  b ← deref st cb;
  let st := store st cb (set_next b (sBufferItemPool st)) in
  mret (set_sBufferItemPool st (Some cb)).

(** The five assignments that fill in a descriptor
    ([displayList], [submitTime = 0], [curSize], [maxSize], [buffer]). *)
Definition fillBufferObj (st : State) (cb : nat) (dl : bool)
    (cur max buf : Z) : Outcome State :=
  b ← deref st cb;
  mret (store st cb (mkBuffer dl 0 buf cur max (next b))).

(** Modelled from the spec: [gpu::queueCommandBuffer] lives in
    gpu/gpu_commandqueue.h, which is not among the sources; it "enqueues to
    the GPU", which retires buffers in submission order. *)
Definition queueCommandBuffer (st : State) (cb : nat) : State :=
  set_gpuQueue st (gpuQueue st ++ [cb]).

(** [freeCommandBuffer(cb)], run by the GPU when [cb] retires. *)
Definition freeCommandBuffer (st : State) (cb : nat) : Outcome State :=
  b ← deref st cb;
  if negb (curSize b =? maxSize b) then Aborted
  else
    st ← (if negb (displayList b) then
            p ← checked (freeToPool (sBufferPool st) (buffer b) (maxSize b));
            mret (set_sBufferPool st p)
          else mret st);
    freeBufferObj st cb.

(** [padCommandBuffer(cb)] on a descriptor of the heap. *)
Definition padCommandBufferAt (st : State) (cb : nat) : Outcome State :=
  b ← deref st cb;
  '(b, m) ← checked (padCommandBuffer b (memory st));
  mret (set_memory (store st cb b) m).

(** ** The lease manager and the active buffer

    The collaborators outside this file are parameters: the core on which
    the calling thread runs ([coreinit::OSGetCoreId()], the argument
    [core] of each function), the main graphics core
    ([gx2::internal::getMainCoreId()]), the wait for one more retirement
    ([GX2WaitTimeStamp(GX2GetRetiredTimeStamp() + 1)], during which the GPU
    thread may run [freeCommandBuffer]) and the guest's
    [displayListOverrun] callback. *)

Section LeaseManager.

Variable getMainCoreId : nat.
Variable GX2WaitTimeStamp : State → Outcome State.
Variable displayListOverrun : Z → Z → Z → Z * Z.

(** The loop of [allocateCommandBuffer]; [fuel] bounds the number of times
    the thread is woken up by a retirement. *)
Fixpoint allocateLoop (fuel : nat) (st : State) (size allocatedSize : Z)
  : Outcome (State * Z * Z) :=
  match allocateFromPool (sBufferPool st) size allocatedSize with
  | None => Aborted
  | Some (p, allocatedBuffer, allocatedSize) =>
      let st := set_sBufferPool st p in
      if allocatedBuffer =? nullptr then
        match fuel with
        | O => Stalled
        | S fuel =>
            match GX2WaitTimeStamp st with
            | Done st => allocateLoop fuel st size allocatedSize
            | Aborted => Aborted
            | Stalled => Stalled
            end
        end
      else Done (st, allocatedBuffer, allocatedSize)
  end.

Definition nonMainCoreWarning : string :=
  "Tried to allocate command buffer on non-main graphics core".

(** [allocateCommandBuffer(size)]. *)
Definition allocateCommandBuffer (fuel : nat) (core : nat) (st : State)
    (size : Z) : Outcome (State * option nat) :=
  if sBufferPoolLeased st then Aborted
  else if negb (getMainCoreId =? core)%nat then
    mret (set_gLog st (gLog st ++ [nonMainCoreWarning]), None)
  else
    '(st, allocatedBuffer, allocatedSize) ← allocateLoop fuel st size 0;
    '(st, cb) ← allocateBufferObj st;
    st ← fillBufferObj st cb false 0 allocatedSize allocatedBuffer;
    mret (set_sBufferPoolLeased st true, Some cb).

(** The assignments of [initCommandBufferPool] that come before the first
    lease is requested. *)
Definition resetPoolPointers (st : State) (base size : Z) : State :=
  set_sBufferPool st
    (mkBufferPool base (base + size) base nullptr
       (sBufferPoolSkipped (sBufferPool st))).

(** [initCommandBufferPool(base, size)]. *)
Definition initCommandBufferPool (fuel : nat) (core : nat) (st : State)
    (base size : Z) : Outcome State :=
  if negb (getMainCoreId =? core)%nat then Aborted
  else
    let st := resetPoolPointers st base size in
    '(st, cb) ← allocateCommandBuffer fuel core st 0x100;
    mret (set_sActiveBuffer st core cb).

(** [flushActiveCommandBuffer()]. *)
Definition flushActiveCommandBuffer (core : nat) (st : State) : Outcome State :=
  match activeBuffer st core with
  | None => Aborted
  | Some cb =>
      b ← deref st cb;
      if displayList b then Aborted
      else if negb (sBufferPoolLeased st) then Aborted
      else
        let st := set_sBufferPoolLeased st false in
        p ← checked (returnToPool (sBufferPool st) (buffer b) (curSize b)
                       (maxSize b));
        let st := set_sBufferPool st p in
        let st := store st cb (set_maxSize b (curSize b)) in
        st ← (if curSize b =? 0 then freeBufferObj st cb
              else mret (queueCommandBuffer st cb));
        mret (set_sActiveBuffer st core None)
  end.

(** [flushCommandBuffer(neededSize)]. *)
Definition flushCommandBuffer (fuel : nat) (core : nat) (st : State)
    (neededSize : Z) : Outcome (State * option nat) :=
  match activeBuffer st core with
  | None => Aborted
  | Some cb =>
      b ← deref st cb;
      if displayList b then
        st ← padCommandBufferAt st cb;
        b ← deref st cb;
        let '(newList, newSize) :=
          displayListOverrun (buffer b) (u32 (curSize b * 4))
            (u32 (neededSize * 4)) in
        if (newList =? nullptr) || (newSize =? 0) then Aborted
        else
          mret (store st cb
                  (mkBuffer (displayList b) (submitTime b) newList 0
                     (newSize / 4) (next b)),
                Some cb)
      else
        st ← flushActiveCommandBuffer core st;
        '(st, cb) ← allocateCommandBuffer fuel core st neededSize;
        mret (set_sActiveBuffer st core cb, cb)
  end.

(** [getCommandBuffer(size)]. *)
Definition getCommandBuffer (fuel : nat) (core : nat) (st : State) (size : Z)
  : Outcome (State * option nat) :=
  match activeBuffer st core with
  | None => Aborted
  | Some cb =>
      b ← deref st cb;
      if maxSize b <? u32 (curSize b + size) then
        '(st, cb) ← flushCommandBuffer fuel core st size;
        mret (set_sActiveBuffer st core cb, cb)
      else mret (st, Some cb)
  end.

(** [queueDisplayList(buffer, size)]. *)
Definition queueDisplayList (st : State) (buf size : Z) : Outcome State :=
  '(st, cb) ← allocateBufferObj st;
  st ← fillBufferObj st cb true size size buf;
  mret (queueCommandBuffer st cb).

(** [beginUserCommandBuffer(buffer, size)]. *)
Definition beginUserCommandBuffer (core : nat) (st : State) (buf size : Z)
  : Outcome State :=
  st ← (if (core =? getMainCoreId)%nat then flushActiveCommandBuffer core st
        else mret st);
  '(st, cb) ← allocateBufferObj st;
  st ← fillBufferObj st cb true 0 size buf;
  match activeBuffer st core with
  | Some _ => Aborted
  | None => mret (set_sActiveBuffer st core (Some cb))
  end.

(** [endUserCommandBuffer(buffer)]; the result carries the returned
    [usedSize]. *)
Definition endUserCommandBuffer (fuel : nat) (core : nat) (st : State)
    (buf : Z) : Outcome (State * Z) :=
  match activeBuffer st core with
  | None => Aborted
  | Some cb =>
      b ← deref st cb;
      if negb (displayList b) then Aborted
      else if negb (buf =? buffer b) then Aborted
      else
        st ← padCommandBufferAt st cb;
        b ← deref st cb;
        let usedSize := curSize b in
        st ← freeBufferObj st cb;
        let st := set_sActiveBuffer st core None in
        if (core =? getMainCoreId)%nat then
          '(st, cb) ← allocateCommandBuffer fuel core st 0x100;
          mret (set_sActiveBuffer st core cb, usedSize)
        else mret (st, usedSize)
  end.

End LeaseManager.

(** A GPU that retires exactly the oldest queued buffer each time the
    main core waits for it, and never wakes the waiter up when nothing is
    queued. *)
Definition retireOldest (st : State) : Outcome State :=
  match gpuQueue st with
  | [] => Stalled
  | cb :: queue => freeCommandBuffer (set_gpuQueue st queue) cb
  end.

(** ** The free list as a list

    [is_freelist h top l]: following [next] from [top] through the heap [h]
    visits exactly the descriptors [l], each once, and ends in [nullptr]. *)
Inductive is_freelist (h : list Buffer) : option nat → list nat → Prop :=
| freelist_nil : is_freelist h None []
| freelist_cons cb b l :
    h !! cb = Some b →
    cb ∉ l →
    is_freelist h (next b) l →
    is_freelist h (Some cb) (cb :: l).

(** ** The whole pool manager and its live allocations

    The live allocations of the ring are the buffers of the pool-backed
    descriptors in the GPU queue, oldest first, followed by the buffer on
    lease, if any. *)

(** The ranges [(buffer, maxSize)] of the pool-backed descriptors among
    [cbs], in order. *)
Definition pool_ranges (h : list Buffer) (cbs : list nat) : list (Z * Z) :=
  omap (λ cb,
          match h !! cb with
          | Some b =>
              if displayList b then None else Some (buffer b, maxSize b)
          | None => None
          end) cbs.

(** A consistent pool manager, with [fl] the descriptors on the free list:
    the queued descriptors are distinct, off the free list and completely
    used ([curSize = maxSize]); a lease is held by the main core's active
    descriptor, which is pool-backed, off the free list and the queue, and
    ends at the head of the ring; and the ring is consistent for the queued
    ranges followed by the lease. *)
Definition sys_wf (mainCore : nat) (st : State) (fl : list nat) : Prop :=
  is_freelist (heap st) (sBufferItemPool st) fl
  ∧ NoDup (gpuQueue st)
  ∧ (∀ cb, cb ∈ gpuQueue st →
       (cb ∉ fl) ∧ ∃ b, heap st !! cb = Some b ∧ curSize b = maxSize b)
  ∧ (if sBufferPoolLeased st then
       ∃ cb b,
         activeBuffer st mainCore = Some cb
         ∧ heap st !! cb = Some b
         ∧ displayList b = false
         ∧ 0 ≤ curSize b ≤ maxSize b
         ∧ (cb ∉ fl)
         ∧ (cb ∉ gpuQueue st)
         ∧ sBufferPoolHeadPtr (sBufferPool st) = buffer b + maxSize b
         ∧ pool_wf (sBufferPool st)
             (pool_ranges (heap st) (gpuQueue st) ++ [(buffer b, maxSize b)])
     else pool_wf (sBufferPool st) (pool_ranges (heap st) (gpuQueue st))).

(** Three states of a pool of 0x40000 words on main core 0: with the first
    lease out and 101 words written; after that lease was flushed and before
    the next one is taken; and with the next lease out. *)
Definition leasedState : State :=
  mkState None true (mkBufferPool 0x1000 0x41000 0x21000 0x1000 0)
    [Some 0%nat; None; None] [mkBuffer false 0 0x1000 101 0x20000 None]
    ∅ [] [].

Definition flushedState : State :=
  mkState None false (mkBufferPool 0x1000 0x41000 0x1065 0x1000 0)
    [None; None; None] [mkBuffer false 0 0x1000 101 101 None]
    ∅ [0%nat] [].

Definition queuedState : State :=
  mkState None true (mkBufferPool 0x1000 0x41000 0x21065 0x1000 0)
    [Some 1%nat; None; None]
    [mkBuffer false 0 0x1000 101 101 None;
     mkBuffer false 0 0x1065 0 0x20000 None]
    ∅ [0%nat] [].

(** ** nn::ndm

    The module keeps one file-scope flag, [gInitialised]; every entry point
    that returns an [nn::Result] returns [nn::Result::Success], the only
    result value the file names. *)
Module ndm.

Inductive Result : Set := Success.

Definition gInitialised0 : bool := false.

Definition Initialize (gInitialised : bool) : bool * Result :=
  (true, Success).

Definition Finalize (gInitialised : bool) : bool * Result :=
  (false, Success).

Definition IsInitialized (gInitialised : bool) : bool := gInitialised.

Definition EnableResumeDaemons (gInitialised : bool) : bool * Result :=
  (gInitialised, Success).

(** The calls a guest can make, and the flag after a sequence of them. *)
Inductive Call : Set :=
  | CallInitialize
  | CallFinalize
  | CallIsInitialized
  | CallEnableResumeDaemons.

Definition call (c : Call) (gInitialised : bool) : bool :=
  match c with
  | CallInitialize => fst (Initialize gInitialised)
  | CallFinalize => fst (Finalize gInitialised)
  | CallIsInitialized => gInitialised
  | CallEnableResumeDaemons => fst (EnableResumeDaemons gInitialised)
  end.

Definition run (cs : list Call) (gInitialised : bool) : bool :=
  fold_left (λ g c, call c g) cs gInitialised.

End ndm.

(** * Properties *)

(** ** Arithmetic of 32-bit words *)

Lemma u32_small z : 0 ≤ z < 2 ^ 32 → u32 z = z.
Proof. intros Hz. unfold u32. apply Z.mod_small. lia. Qed.

Lemma u32_range z : 0 ≤ u32 z < 2 ^ 32.
Proof. unfold u32. apply Z.mod_pos_bound. lia. Qed.

Lemma u32_idemp z : u32 (u32 z) = u32 z.
Proof. apply u32_small, u32_range. Qed.

(** Case analysis on the comparisons of the C code. *)
Ltac zcompare :=
  repeat match goal with
  | |- context [?a =? ?b] => destruct (Z.eqb_spec a b)
  | |- context [?a <? ?b] => destruct (Z.ltb_spec a b)
  | |- context [?a <=? ?b] => destruct (Z.leb_spec a b)
  | H : context [?a =? ?b] |- _ => destruct (Z.eqb_spec a b)
  | H : context [?a <? ?b] |- _ => destruct (Z.ltb_spec a b)
  | H : context [?a <=? ?b] |- _ => destruct (Z.leb_spec a b)
  end.

Example allocate_whole_pool :
  allocateFromPool (emptyPool 0x1000 0x100) 0 0
  = Some (mkBufferPool 0x1000 0x1100 0x1100 0x1000 0, 0x1000, 0x100).
Proof. reflexivity. Qed.

Example allocate_capped :
  allocateFromPool (emptyPool 0x1000 0x40000) 0 0
  = Some (mkBufferPool 0x1000 0x41000 0x21000 0x1000 0, 0x1000, 0x20000).
Proof. reflexivity. Qed.

(** ** [freeToPool] *)

(** C4.  For every call [freeToPool(buffer, words)] with the tail not the
    sentinel: a tail with [tail + skipped = end] is first moved to the base
    and [skipped] cleared; the call then aborts exactly when the tail
    differs from [buffer]; otherwise the tail advances by [words], and a
    tail that meets the head resets the ring to [head = base],
    [tail = nullptr]. *)
Theorem freeToPool_protocol (p : BufferPool) (buf words : Z) :
  sBufferPoolTailPtr p ≠ nullptr →
  ∃ tail1 skipped1,
    (sBufferPoolTailPtr p + sBufferPoolSkipped p = sBufferPoolEnd p
       ∧ skipped1 = 0 ∧ tail1 = sBufferPoolBase p
     ∨ sBufferPoolTailPtr p + sBufferPoolSkipped p ≠ sBufferPoolEnd p
       ∧ skipped1 = sBufferPoolSkipped p ∧ tail1 = sBufferPoolTailPtr p)
    ∧ (freeToPool p buf words = None ↔ tail1 ≠ buf)
    ∧ (tail1 = buf →
       ∃ p', freeToPool p buf words = Some p'
         ∧ sBufferPoolBase p' = sBufferPoolBase p
         ∧ sBufferPoolEnd p' = sBufferPoolEnd p
         ∧ sBufferPoolSkipped p' = skipped1
         ∧ (tail1 + words = sBufferPoolHeadPtr p →
            sBufferPoolHeadPtr p' = sBufferPoolBase p
            ∧ sBufferPoolTailPtr p' = nullptr)
         ∧ (tail1 + words ≠ sBufferPoolHeadPtr p →
            sBufferPoolHeadPtr p' = sBufferPoolHeadPtr p
            ∧ sBufferPoolTailPtr p' = tail1 + words)).
Proof.
  intros _. destruct p as [b e h t s].
  unfold freeToPool, consumeWrapGap; simpl.
  destruct (Z.eqb_spec (t + s) e) as [Hgap | Hgap]; simpl;
    [exists b, 0; split; [left; auto |]
    | exists t, s; split; [right; auto |]];
    zcompare; simpl;
    (split;
     [split; intros; try discriminate; try congruence; try tauto
     | intros; try congruence; eexists; (split; [reflexivity |]); simpl;
       repeat split; intros; congruence]).
Qed.

Lemma freeToPool_protocol_witness :
  ∃ tail1 skipped1,
    (0x1F00 + 0x100 = 0x2000 ∧ skipped1 = 0 ∧ tail1 = 0x1000
     ∨ 0x1F00 + 0x100 ≠ 0x2000 ∧ skipped1 = 0x100 ∧ tail1 = 0x1F00)
    ∧ (freeToPool (mkBufferPool 0x1000 0x2000 0x1200 0x1F00 0x100) 0x1000 0x200
       = None ↔ tail1 ≠ 0x1000)
    ∧ (tail1 = 0x1000 →
       ∃ p', freeToPool (mkBufferPool 0x1000 0x2000 0x1200 0x1F00 0x100)
               0x1000 0x200 = Some p'
         ∧ sBufferPoolBase p' = 0x1000
         ∧ sBufferPoolEnd p' = 0x2000
         ∧ sBufferPoolSkipped p' = skipped1
         ∧ (tail1 + 0x200 = 0x1200 →
            sBufferPoolHeadPtr p' = 0x1000 ∧ sBufferPoolTailPtr p' = nullptr)
         ∧ (tail1 + 0x200 ≠ 0x1200 →
            sBufferPoolHeadPtr p' = 0x1200
            ∧ sBufferPoolTailPtr p' = tail1 + 0x200)).
Proof.
  apply (freeToPool_protocol (mkBufferPool 0x1000 0x2000 0x1200 0x1F00 0x100)
           0x1000 0x200).
  unfold nullptr; simpl; lia.
Defined.

Example freeToPool_consumes_gap :
  freeToPool (mkBufferPool 0x1000 0x2000 0x1200 0x1F00 0x100) 0x1000 0x200
  = Some (mkBufferPool 0x1000 0x2000 0x1000 nullptr 0).
Proof. reflexivity. Qed.

Example freeToPool_out_of_order :
  freeToPool (mkBufferPool 0x1000 0x2000 0x1400 0x1000 0) 0x1200 0x200 = None.
Proof. reflexivity. Qed.

(** ** [returnToPool] *)

(** C6, as stated, fails on a lease that was used up: with
    [usedWords = originalWords] the call returns before the check, so it
    does not abort although [head ≠ buffer + originalWords]. *)
Lemma returnToPool_full_lease_unchecked :
  5 ≤ 5
  ∧ sBufferPoolHeadPtr (mkBufferPool 0x1000 0x2000 0x1200 0x1000 0)
    ≠ 0x1000 + 5
  ∧ returnToPool (mkBufferPool 0x1000 0x2000 0x1200 0x1000 0) 0x1000 5 5
    = Some (mkBufferPool 0x1000 0x2000 0x1200 0x1000 0).
Proof. simpl. repeat split; [lia | lia]. Qed.

(** C6, amended.  For every call [returnToPool(buffer, usedWords,
    originalWords)] with [usedWords < originalWords], the process aborts
    exactly when [head ≠ buffer + originalWords], and otherwise the head is
    set to [buffer + usedWords] and nothing else changes; with
    [usedWords = originalWords] the call returns at once, without the check
    and without touching the ring. *)
Theorem returnToPool_protocol (p : BufferPool) (buf usedWords originalWords : Z) :
  usedWords ≤ originalWords →
  (usedWords < originalWords →
     (returnToPool p buf usedWords originalWords = None
        ↔ sBufferPoolHeadPtr p ≠ buf + originalWords)
     ∧ (sBufferPoolHeadPtr p = buf + originalWords →
        returnToPool p buf usedWords originalWords
        = Some (mkBufferPool (sBufferPoolBase p) (sBufferPoolEnd p)
                  (buf + usedWords) (sBufferPoolTailPtr p)
                  (sBufferPoolSkipped p))))
  ∧ (usedWords = originalWords →
     returnToPool p buf usedWords originalWords = Some p).
Proof.
  intros Hle. unfold returnToPool, set_head. split.
  - intros Hlt. zcompare; try lia; (split; [split |]); intros; try congruence;
      try lia; try discriminate.
  - intros ->. zcompare; try lia; reflexivity.
Qed.

Lemma returnToPool_protocol_witness :
  (0x68 < 0x100 →
     (returnToPool (mkBufferPool 0x1000 0x2000 0x1100 0x1000 0) 0x1000 0x68
        0x100 = None ↔ 0x1100 ≠ 0x1000 + 0x100)
     ∧ (0x1100 = 0x1000 + 0x100 →
        returnToPool (mkBufferPool 0x1000 0x2000 0x1100 0x1000 0) 0x1000 0x68
          0x100
        = Some (mkBufferPool 0x1000 0x2000 (0x1000 + 0x68) 0x1000 0)))
  ∧ (0x68 = 0x100 →
     returnToPool (mkBufferPool 0x1000 0x2000 0x1100 0x1000 0) 0x1000 0x68
       0x100
     = Some (mkBufferPool 0x1000 0x2000 0x1100 0x1000 0)).
Proof.
  apply (returnToPool_protocol (mkBufferPool 0x1000 0x2000 0x1100 0x1000 0)
           0x1000 0x68 0x100).
  lia.
Defined.

Example returnToPool_over_used :
  returnToPool (mkBufferPool 0x1000 0x2000 0x1100 0x1000 0) 0x1000 0x101 0x100
  = None.
Proof. reflexivity. Qed.

(** ** [allocateFromPool] *)

(** A failed allocation returns before any assignment. *)
Lemma failed_allocation_unchanged (p p' : BufferPool)
    (wantedWords allocatedSize n : Z) :
  sBufferPoolBase p ≠ nullptr →
  sBufferPoolHeadPtr p ≠ nullptr →
  allocateFromPool p wantedWords allocatedSize = Some (p', nullptr, n) →
  sBufferPoolTailPtr p ≠ nullptr ∧ p' = p ∧ n = allocatedSize.
Proof.
  intros Hbase Hhead. destruct p as [b e h t s].
  unfold allocateFromPool, grantFromHead, set_head, set_tail, set_skipped;
    simpl in *.
  intros H. zcompare; try discriminate; inversion H; subst;
    try congruence; auto.
Qed.

(** C9.  Whenever [allocateFromPool] returns [nullptr] on a pool whose base
    and head are real pointers, the tail is not the sentinel and the ring
    ([head], [tail], [skipped], and the bounds) is exactly as before the
    call; the reference parameter is left alone too. *)
Theorem allocateFromPool_nullptr_unchanged (p p' : BufferPool)
    (wantedWords allocatedSize n : Z) :
  sBufferPoolBase p ≠ nullptr →
  sBufferPoolHeadPtr p ≠ nullptr →
  allocateFromPool p wantedWords allocatedSize = Some (p', nullptr, n) →
  sBufferPoolTailPtr p ≠ nullptr
  ∧ sBufferPoolHeadPtr p' = sBufferPoolHeadPtr p
  ∧ sBufferPoolTailPtr p' = sBufferPoolTailPtr p
  ∧ sBufferPoolSkipped p' = sBufferPoolSkipped p
  ∧ p' = p
  ∧ n = allocatedSize.
Proof.
  intros Hbase Hhead Halloc.
  destruct (failed_allocation_unchanged _ _ _ _ _ Hbase Hhead Halloc)
    as (Htail & -> & ->).
  repeat split; auto.
Qed.

Lemma allocateFromPool_nullptr_unchanged_witness :
  sBufferPoolTailPtr (mkBufferPool 0x1000 0x1200 0x1200 0x1080 0) ≠ nullptr
  ∧ 0x1200 = 0x1200
  ∧ 0x1080 = 0x1080
  ∧ 0 = 0
  ∧ mkBufferPool 0x1000 0x1200 0x1200 0x1080 0
    = mkBufferPool 0x1000 0x1200 0x1200 0x1080 0
  ∧ 0 = 0.
Proof.
  apply (allocateFromPool_nullptr_unchanged
           (mkBufferPool 0x1000 0x1200 0x1200 0x1080 0)
           (mkBufferPool 0x1000 0x1200 0x1200 0x1080 0) 0x100 0 0).
  - unfold nullptr; simpl; lia.
  - unfold nullptr; simpl; lia.
  - reflexivity.
Defined.

(** ** Back-to-back ranges *)

Lemma tiles_le l a b : tiles l a b → a ≤ b.
Proof.
  revert a. induction l as [| [x n] l IH]; simpl; intros a H; [lia |].
  destruct H as (_ & Hn & H). apply IH in H. lia.
Qed.

Lemma tiles_lt l a b : l ≠ [] → tiles l a b → a < b.
Proof.
  destruct l as [| [x n] l]; [congruence |]. simpl.
  intros _ (_ & Hn & H). apply tiles_le in H. lia.
Qed.

Lemma tiles_nil_iff l a : tiles l a a ↔ l = [].
Proof.
  split; [| intros ->; reflexivity].
  destruct l as [| [x n] l]; [reflexivity |].
  intros H. apply tiles_lt in H; [lia | discriminate].
Qed.

Lemma tiles_app l1 l2 a c :
  tiles (l1 ++ l2) a c ↔ ∃ b, tiles l1 a b ∧ tiles l2 b c.
Proof.
  revert a. induction l1 as [| [x n] l1 IH]; simpl; intros a.
  - split; [intros H; exists a; auto | intros (b & -> & H); exact H].
  - rewrite IH. split.
    + intros (Hx & Hn & b & H1 & H2). exists b. auto.
    + intros (b & (Hx & Hn & H1) & H2). eauto.
Qed.

Lemma tiles_snoc l a c buf n :
  tiles (l ++ [(buf, n)]) a c ↔ tiles l a buf ∧ 0 < n ∧ c = buf + n.
Proof.
  rewrite tiles_app. simpl. split.
  - intros (b & H1 & -> & Hn & <-). auto.
  - intros (H1 & Hn & ->). exists buf. auto.
Qed.

(** ** Allocate everything, then retire everything *)

(** Allocation on a ring whose tail sits at the base never wraps: the
    buffers handed out follow one another from the old head. *)
Lemma allocateAll_linear wanted : ∀ p p1 bufs,
  pool_region p →
  sBufferPoolTailPtr p = sBufferPoolBase p →
  sBufferPoolBase p ≤ sBufferPoolHeadPtr p ≤ sBufferPoolEnd p →
  allocateAll p wanted = Some (p1, bufs) →
  sBufferPoolBase p1 = sBufferPoolBase p
  ∧ sBufferPoolEnd p1 = sBufferPoolEnd p
  ∧ sBufferPoolTailPtr p1 = sBufferPoolBase p
  ∧ sBufferPoolSkipped p1 = sBufferPoolSkipped p
  ∧ sBufferPoolHeadPtr p1 ≤ sBufferPoolEnd p
  ∧ tiles bufs (sBufferPoolHeadPtr p) (sBufferPoolHeadPtr p1).
Proof.
  induction wanted as [| w wanted IH]; intros p p1 bufs Hreg Htail Hhead Hall.
  - simpl in Hall. inversion Hall; subst. simpl. repeat split; lia.
  - simpl in Hall.
    destruct (allocateFromPool p w 0) as [[[p' buf] n] |] eqn:Halloc;
      [| discriminate].
    destruct (Z.eqb_spec buf nullptr) as [| Hbuf]; [discriminate |].
    destruct (allocateAll p' wanted) as [[p'' bufs'] |] eqn:Hrest;
      [| discriminate].
    inversion Hall; subst p'' bufs; clear Hall.
    destruct p as [b e h t s]. destruct Hreg as [Hb Hsize].
    simpl in *. subst t.
    assert (Hstep : p' = mkBufferPool b e (h + n) b s ∧ buf = h ∧ 0 < n
                    ∧ h + n ≤ e).
    { revert Halloc.
      unfold allocateFromPool, grantFromHead, set_head, set_tail, set_skipped,
        nullptr in *; simpl.
      rewrite (u32_small (e - h)) by lia.
      replace (b - b) with 0 by lia. rewrite (u32_small 0) by lia.
      intros Halloc. zcompare; try lia; try discriminate;
        inversion Halloc; subst; try congruence.
      repeat split; lia. }
    destruct Hstep as (-> & -> & Hn & Hle).
    apply IH in Hrest; simpl; try (unfold pool_region; simpl; lia).
    simpl in Hrest. destruct Hrest as (? & ? & ? & ? & ? & ?).
    repeat split; auto.
Qed.

(** Retiring back-to-back buffers that end at the head empties the ring. *)
Lemma freeAll_tiles bufs : ∀ p,
  bufs ≠ [] →
  sBufferPoolSkipped p = 0 →
  sBufferPoolHeadPtr p ≤ sBufferPoolEnd p →
  tiles bufs (sBufferPoolTailPtr p) (sBufferPoolHeadPtr p) →
  freeAll p bufs
  = Some (mkBufferPool (sBufferPoolBase p) (sBufferPoolEnd p)
            (sBufferPoolBase p) nullptr 0).
Proof.
  induction bufs as [| [x n] bufs IH]; intros p Hne Hsk Hhead Htiles;
    [congruence |].
  destruct p as [b e h t s]. simpl in *. subst s.
  destruct Htiles as (-> & Hn & Htiles).
  pose proof (tiles_le _ _ _ Htiles) as Hle.
  unfold freeToPool, consumeWrapGap, set_head, set_tail, set_skipped; simpl.
  destruct (Z.eqb_spec (t + 0) e); [lia |]. simpl.
  rewrite Z.eqb_refl.
  destruct (Z.eqb_spec (t + n) h) as [Heq | Hneq].
  - subst h. apply tiles_nil_iff in Htiles. subst bufs. reflexivity.
  - assert (bufs ≠ []) as Hne'.
    { intros ->. simpl in Htiles. lia. }
    apply (IH (mkBufferPool b e h (t + n) 0)); simpl; auto.
Qed.

(** C5.  Starting from the empty ring, any run of allocations that all
    succeed, followed by the retirement of the same buffers with their
    granted sizes in the same order, retires every buffer without aborting
    and leaves the ring empty again: [tail = nullptr], [head = base],
    [skipped = 0]. *)
Theorem allocate_then_free_all_empties (p p1 : BufferPool) (wanted : list Z)
    (bufs : list (Z * Z)) :
  pool_region p →
  sBufferPoolTailPtr p = nullptr →
  sBufferPoolHeadPtr p = sBufferPoolBase p →
  sBufferPoolSkipped p = 0 →
  allocateAll p wanted = Some (p1, bufs) →
  ∃ p2, freeAll p1 bufs = Some p2
    ∧ sBufferPoolTailPtr p2 = nullptr
    ∧ sBufferPoolHeadPtr p2 = sBufferPoolBase p2
    ∧ sBufferPoolSkipped p2 = 0
    ∧ p2 = p.
Proof.
  intros Hreg Htail Hhead Hsk Hall.
  destruct wanted as [| w wanted].
  - simpl in Hall. inversion Hall; subst p1 bufs. exists p. simpl. auto.
  - simpl in Hall.
    destruct (allocateFromPool p w 0) as [[[p' buf] n] |] eqn:Halloc;
      [| discriminate].
    destruct (Z.eqb_spec buf nullptr) as [| Hbuf]; [discriminate |].
    destruct (allocateAll p' wanted) as [[p'' bufs'] |] eqn:Hrest;
      [| discriminate].
    inversion Hall; subst p'' bufs; clear Hall.
    destruct p as [b e h t s]. destruct Hreg as [Hb Hsize].
    simpl in *. subst t h s.
    assert (Hstep : p' = mkBufferPool b e (b + n) b 0 ∧ buf = b ∧ 0 < n
                    ∧ b + n ≤ e).
    { revert Halloc.
      unfold allocateFromPool, grantFromHead, set_head, set_tail, set_skipped,
        nullptr in *; simpl.
      rewrite (u32_small (e - b)) by lia.
      intros Halloc. zcompare; try lia; try discriminate;
        inversion Halloc; subst; try congruence.
      repeat split; lia. }
    destruct Hstep as (-> & -> & Hn & Hle).
    apply allocateAll_linear in Hrest; simpl;
      try (unfold pool_region; simpl; lia).
    simpl in Hrest. destruct Hrest as (Hb1 & He1 & Ht1 & Hs1 & Hh1 & Hti).
    exists (mkBufferPool b e b nullptr 0). simpl. repeat split; auto.
    destruct p1 as [b1 e1 h1 t1 s1]. simpl in *. subst b1 e1 t1 s1.
    apply (freeAll_tiles ((b, n) :: bufs')
             (mkBufferPool b e h1 b 0)); simpl; auto.
Qed.

Lemma allocate_then_free_all_empties_witness :
  ∃ p2, freeAll (mkBufferPool 0x1000 0x41000 0x41000 0x1000 0)
          [(0x1000, 0x20000); (0x21000, 0x20000)] = Some p2
    ∧ sBufferPoolTailPtr p2 = nullptr
    ∧ sBufferPoolHeadPtr p2 = sBufferPoolBase p2
    ∧ sBufferPoolSkipped p2 = 0
    ∧ p2 = emptyPool 0x1000 0x40000.
Proof.
  apply (allocate_then_free_all_empties (emptyPool 0x1000 0x40000) _ [0; 0x300]).
  - unfold pool_region; simpl; lia.
  - reflexivity.
  - reflexivity.
  - reflexivity.
  - reflexivity.
Defined.

(** ** The ring stays within its bounds *)

Ltac u32_simpl :=
  repeat match goal with
  | H : context [u32 ?x] |- _ => rewrite (u32_small x) in H by lia
  | |- context [u32 ?x] => rewrite (u32_small x) by lia
  end.

Ltac unfold_pool :=
  unfold allocateFromPool, grantFromHead, returnToPool, freeToPool,
    consumeWrapGap, set_head, set_tail, set_skipped, pool_region, nullptr
    in *; simpl in *.

Lemma pool_wf_empty base size :
  0 < base → 0 ≤ size < 2 ^ 32 → pool_wf (emptyPool base size) [].
Proof.
  intros Hb Hs. split; [unfold pool_region; simpl; lia |].
  left. simpl. auto.
Qed.

(** What a consistent ring says about the five variables alone. *)
Lemma pool_wf_numeric p live :
  pool_wf p live →
  pool_region p
  ∧ 0 ≤ sBufferPoolSkipped p
  ∧ sBufferPoolBase p ≤ sBufferPoolHeadPtr p ≤ sBufferPoolEnd p
  ∧ (sBufferPoolTailPtr p = nullptr ∧ sBufferPoolSkipped p = 0
       ∧ sBufferPoolHeadPtr p = sBufferPoolBase p
     ∨ sBufferPoolBase p ≤ sBufferPoolTailPtr p
       ∧ sBufferPoolTailPtr p + sBufferPoolSkipped p ≤ sBufferPoolEnd p).
Proof.
  intros [Hreg Hwf]. split; [exact Hreg |].
  destruct Hreg as [Hb Hsz].
  destruct Hwf as [(Ht & Hh & Hs & _) | [(Hs & Ht & Hh & Hti) | Hwrap]].
  - rewrite Hs, Hh. repeat split; try lia; auto.
  - apply tiles_le in Hti. rewrite Hs. repeat split; try lia; right; lia.
  - destruct Hwrap as (l1 & l2 & _ & Hs & Hgap & Hht & Ht1 & Ht2).
    apply tiles_le in Ht1, Ht2. repeat split; try lia; right; lia.
Qed.

Lemma pool_wf_bounds p live : pool_wf p live → pool_bounds p.
Proof.
  intros H. apply pool_wf_numeric in H.
  destruct H as (_ & _ & Hh & [(Ht & _) | (Ht & Hts)]).
  - left. exact Ht.
  - right. auto.
Qed.

(** An allocation keeps the bounds whatever the live allocations are, also
    on a full ring. *)
Lemma allocateFromPool_bounds p live wanted allocatedSize p' buf n :
  pool_wf p live →
  allocateFromPool p wanted allocatedSize = Some (p', buf, n) →
  pool_bounds p'.
Proof.
  intros Hwf Halloc. apply pool_wf_numeric in Hwf.
  destruct p as [b e h t s]. unfold pool_bounds. unfold_pool.
  destruct Hwf as ((Hb & Hsz) & Hs & Hh & Hcases).
  zcompare; try discriminate; u32_simpl; inversion Halloc; subst;
    simpl; try lia.
Qed.

Lemma allocateFromPool_no_room p live wanted allocatedSize p' n :
  pool_wf p live →
  allocateFromPool p wanted allocatedSize = Some (p', nullptr, n) →
  p' = p.
Proof.
  intros Hwf Halloc. apply pool_wf_numeric in Hwf.
  destruct Hwf as ((Hb & Hsz) & _ & Hh & _).
  apply failed_allocation_unchanged in Halloc;
    [tauto | unfold nullptr; lia | unfold nullptr; lia].
Qed.

(** An allocation keeps the ring consistent unless the ring is full. *)
Lemma allocateFromPool_wf p live wanted allocatedSize p' buf n :
  pool_wf p live →
  ¬ ring_full p live →
  allocateFromPool p wanted allocatedSize = Some (p', buf, n) →
  buf ≠ nullptr →
  pool_wf p' (live ++ [(buf, n)]).
Proof.
  intros [Hreg Hwf] Hfull Halloc Hbuf.
  destruct p as [b e h t s]. unfold pool_wf, ring_full in *.
  destruct Hreg as [Hb Hsz]. unfold_pool.
  destruct Hwf as [(Ht & Hh & Hs & Hl) | [(Hs & Ht & Hh & Hti) | Hwrap]].
  - (* empty ring *)
    subst t h s live.
    zcompare; try discriminate; try lia; u32_simpl; injection Halloc as <- <- <-;
      simpl.
    split; [lia |]. right; left. simpl. repeat split; lia.
  - (* live allocations in one piece *)
    subst s. pose proof (tiles_le _ _ _ Hti) as Hle.
    zcompare; try discriminate; try lia; u32_simpl; injection Halloc as <- <- <-;
      simpl; try congruence; (split; [lia |]).
    + (* wrap *)
      right; right. exists live, [(b, Z.min 131072 (t - b))]. simpl.
      replace (e - (e - h)) with h by lia. repeat split; auto; lia.
    + (* room before the end *)
      right; left. simpl. rewrite tiles_snoc. repeat split; auto; lia.
  - (* live allocations in two pieces *)
    destruct Hwrap as (l1 & l2 & -> & Hs & Hgap & Hht & Ht1 & Ht2).
    pose proof (tiles_le _ _ _ Ht1) as Hle1.
    pose proof (tiles_le _ _ _ Ht2) as Hle2.
    assert (h < t) as Hlt.
    { destruct (Z.eq_dec h t) as [-> | Hne]; [| lia].
      destruct (decide (l1 ++ l2 = [])) as [Hnil | Hnil]; [| tauto].
      apply app_eq_nil in Hnil as [-> ->]. simpl in *. lia. }
    zcompare; try discriminate; try lia; u32_simpl; injection Halloc as <- <- <-;
      simpl; try congruence; (split; [lia |]).
    right; right. exists l1, (l2 ++ [(h, Z.min 131072 (t - h))]).
    rewrite tiles_snoc, <- app_assoc. simpl. repeat split; auto; lia.
Qed.

(** Shrinking the latest allocation keeps the ring consistent. *)
Lemma returnToPool_wf p live buf used original p' :
  pool_wf p (live ++ [(buf, original)]) →
  0 ≤ used ≤ original →
  returnToPool p buf used original = Some p' →
  pool_wf p' (live ++ (if used =? 0 then [] else [(buf, used)])).
Proof.
  intros [Hreg Hwf] Hused Hret.
  destruct p as [b e h t s]. unfold pool_wf in *.
  destruct Hreg as [Hb Hsz]. unfold_pool.
  destruct Hwf as [(Ht & Hh & Hs & Hl) | [(Hs & Ht & Hh & Hti) | Hwrap]].
  - destruct live; discriminate.
  - subst s. apply tiles_snoc in Hti as (Hti & Horig & ->).
    pose proof (tiles_le _ _ _ Hti) as Hle.
    zcompare; try discriminate; try lia; injection Hret as <-; simpl;
      (split; [lia |]); right; left; simpl;
      rewrite ?app_nil_r, ?tiles_snoc; repeat split; auto; try lia; try congruence;
      try (replace (buf + used) with buf by lia; auto).
  - destruct Hwrap as (l1 & l2 & Hl & Hs & Hgap & Hht & Ht1 & Ht2).
    pose proof (tiles_le _ _ _ Ht1) as Hle1.
    destruct l2 as [| x l2 _] using rev_ind.
    + rewrite app_nil_r in Hl. subst l1. simpl in Ht2. subst h.
      apply tiles_snoc in Ht1 as (Ht1 & Horig & Hend).
      zcompare; try discriminate; try lia; injection Hret as <-; simpl;
        (split; [lia |]); right; right.
      exists (live ++ [(buf, original)]), []. rewrite app_nil_r, tiles_snoc.
      simpl. repeat split; auto; try lia; try congruence;
      try (replace (buf + used) with buf by lia; auto).
    + rewrite app_assoc in Hl. apply app_inj_tail in Hl as [-> <-].
      apply tiles_snoc in Ht2 as (Ht2 & Horig & ->).
      pose proof (tiles_le _ _ _ Ht2) as Hle2.
      zcompare; try discriminate; try lia; injection Hret as <-; simpl;
        (split; [lia |]); right; right.
      all: first
        [ solve [exists l1, l2; rewrite app_nil_r; repeat split; auto; try lia;
                 replace (buf + used) with buf by lia; auto]
        | solve [exists l1, (l2 ++ [(buf, used)]);
                 rewrite tiles_snoc, <- app_assoc; repeat split; auto;
                 try lia; try congruence] ].
Qed.

(** Retiring the oldest allocation keeps the ring consistent. *)
Lemma freeToPool_wf p live buf n p' :
  pool_wf p ((buf, n) :: live) →
  freeToPool p buf n = Some p' →
  pool_wf p' live.
Proof.
  intros [Hreg Hwf] Hfree.
  destruct p as [b e h t s]. unfold pool_wf in *.
  destruct Hreg as [Hb Hsz]. unfold_pool.
  destruct Hwf as [(Ht & Hh & Hs & Hl) | [(Hs & Ht & Hh & Hti) | Hwrap]].
  - discriminate.
  - subst s. destruct Hti as (-> & Hn & Hti).
    pose proof (tiles_le _ _ _ Hti) as Hle.
    destruct (Z.eqb_spec (t + 0) e); [lia |]. simpl in Hfree.
    rewrite Z.eqb_refl in Hfree.
    destruct (Z.eqb_spec (t + n) h) as [Heq | Hne]; injection Hfree as <-;
      simpl; (split; [lia |]).
    + left. rewrite Heq in Hti. apply tiles_nil_iff in Hti. auto.
    + right; left. simpl. repeat split; auto; lia.
  - destruct Hwrap as (l1 & l2 & Hl & Hs & Hgap & Hht & Ht1 & Ht2).
    destruct l1 as [| [x m] l1]; simpl in Hl, Ht1.
    + subst l2. destruct Ht2 as (-> & Hn & Ht2).
      pose proof (tiles_le _ _ _ Ht2) as Hle.
      destruct (Z.eqb_spec (t + s) e); [| lia]. simpl in Hfree.
      rewrite Z.eqb_refl in Hfree.
      destruct (Z.eqb_spec (b + n) h) as [Heq | Hne]; injection Hfree as <-;
        simpl; (split; [lia |]).
      * left. rewrite Heq in Ht2. apply tiles_nil_iff in Ht2. auto.
      * right; left. simpl. repeat split; auto; lia.
    + inversion Hl; subst x m live; clear Hl.
      destruct Ht1 as (-> & Hn & Ht1).
      pose proof (tiles_le _ _ _ Ht1) as Hle1.
      pose proof (tiles_le _ _ _ Ht2) as Hle2.
      destruct (Z.eqb_spec (t + s) e); [lia |]. simpl in Hfree.
      rewrite Z.eqb_refl in Hfree.
      destruct (Z.eqb_spec (t + n) h) as [Heq | Hne]; [lia |].
      injection Hfree as <-; simpl. split; [lia |]. right; right.
      exists l1, l2. simpl. repeat split; auto; lia.
Qed.

Lemma pool_step_wf p live p' live' :
  pool_wf p live →
  guarded_step (p, live) (p', live') →
  pool_wf p' live'.
Proof.
  intros Hwf [Hstep Hguard]. simpl in Hguard.
  inversion Hstep; subst.
  - eapply allocateFromPool_wf; eauto.
    intros Hfull. specialize (Hguard Hfull).
    rewrite length_app in Hguard. simpl in Hguard. lia.
  - assert (p' = p) as -> by (eapply allocateFromPool_no_room; eauto).
    exact Hwf.
  - eapply returnToPool_wf; eauto.
  - eapply freeToPool_wf; eauto.
Qed.

(** Every ring reached from a consistent one, the empty ring in
    particular, without allocating from a full ring is consistent. *)
Lemma pool_run_wf s1 s2 :
  rtc guarded_step s1 s2 → pool_wf s1.1 s1.2 → pool_wf s2.1 s2.2.
Proof.
  induction 1 as [| [p live] [p' live'] s3 Hstep _ IH]; [auto |].
  simpl. intros Hwf. apply IH. simpl. eapply pool_step_wf; eauto.
Qed.

(** C1, as stated, fails on the head: two full-size allocations from an
    empty pool of 0x40000 words leave [head = end] with the tail not the
    sentinel, so [head < end] does not hold. *)
Lemma pool_bounds_claimed_fails :
  allocateAll (emptyPool 0x1000 0x40000) [0; 0]
  = Some (mkBufferPool 0x1000 0x41000 0x41000 0x1000 0,
          [(0x1000, 0x20000); (0x21000, 0x20000)])
  ∧ ¬ pool_bounds_claimed (mkBufferPool 0x1000 0x41000 0x41000 0x1000 0).
Proof.
  split; [reflexivity |].
  unfold pool_bounds_claimed, nullptr. simpl. lia.
Qed.

(** C1, amended.  After every call to [allocateFromPool], to
    [returnToPool] on the latest allocation or to [freeToPool] on the
    oldest live allocation that does not abort, made on a consistent ring
    (the live allocations cover [[tail, head)], or after a wrap
    [[tail, end - skipped)] and then [[base, head)]), either the tail is the
    sentinel, or [tail + skipped ≤ end] and [base ≤ head ≤ end]; the head
    equals [end] when an allocation runs up to the end of the pool. *)
Theorem pool_step_bounds (p p' : BufferPool) (live live' : list (Z * Z)) :
  pool_wf p live →
  pool_step (p, live) (p', live') →
  pool_bounds p'.
Proof.
  intros Hwf Hstep. inversion Hstep; subst.
  - eapply allocateFromPool_bounds; eauto.
  - eapply allocateFromPool_bounds; eauto.
  - eapply pool_wf_bounds, returnToPool_wf; eauto.
  - eapply pool_wf_bounds, freeToPool_wf; eauto.
Qed.

Lemma pool_step_bounds_witness :
  pool_bounds (mkBufferPool 0x1000 0x41000 0x21000 0x1000 0).
Proof.
  apply (pool_step_bounds (emptyPool 0x1000 0x40000) _ [] [(0x1000, 0x20000)]).
  - apply pool_wf_empty; lia.
  - apply (step_allocate (emptyPool 0x1000 0x40000) [] 0 0 _ 0x1000 0x20000).
    + reflexivity.
    + unfold nullptr; lia.
Defined.

(** The ring after a wrap, with the wrap gap recorded, is consistent, and
    retiring the buffer in front of the gap keeps it so. *)
Example pool_wf_wrapped :
  pool_wf (mkBufferPool 0x1000 0x1300 0x1100 0x1100 0x80)
    [(0x1100, 0x180); (0x1000, 0x100)].
Proof.
  split; [unfold pool_region; simpl; lia |]. right; right.
  exists [(0x1100, 0x180)], [(0x1000, 0x100)]. simpl. repeat split; lia.
Qed.

(** What is left out of C1: from a full ring the allocator takes the live
    words behind the head for free space.  Here [(0x1100, 0x200)] is live
    and is handed out again; three calls later the tail has run past
    [end - skipped]. *)
Example full_ring_is_misread :
  pool_wf (mkBufferPool 0x1000 0x1300 0x1100 0x1100 0)
    [(0x1100, 0x200); (0x1000, 0x100)]
  ∧ allocateFromPool (mkBufferPool 0x1000 0x1300 0x1100 0x1100 0) 0 0
    = Some (mkBufferPool 0x1000 0x1300 0x1300 0x1100 0, 0x1100, 0x200)
  ∧ returnToPool (mkBufferPool 0x1000 0x1300 0x1300 0x1100 0) 0x1100 0x180 0x200
    = Some (mkBufferPool 0x1000 0x1300 0x1280 0x1100 0)
  ∧ allocateFromPool (mkBufferPool 0x1000 0x1300 0x1280 0x1100 0) 0 0
    = Some (mkBufferPool 0x1000 0x1300 0x1100 0x1100 0x80, 0x1000, 0x100)
  ∧ freeToPool (mkBufferPool 0x1000 0x1300 0x1100 0x1100 0x80) 0x1100 0x200
    = Some (mkBufferPool 0x1000 0x1300 0x1100 0x1300 0x80)
  ∧ ¬ pool_bounds (mkBufferPool 0x1000 0x1300 0x1100 0x1300 0x80).
Proof.
  split.
  { split; [unfold pool_region; simpl; lia |]. right; right.
    exists [(0x1100, 0x200)], [(0x1000, 0x100)]. simpl. repeat split; lia. }
  repeat (split; [reflexivity |]).
  unfold pool_bounds, nullptr. simpl. lia.
Qed.

(** ** [padCommandBuffer] *)

Example fillerWord_value : fillerWord = 0x2929EFBE.
Proof. reflexivity. Qed.

(** On 32-bit words, [align_up] to the 8-word granule is the round-up as
    long as that still is a 32-bit word. *)
Lemma align_up_granule c :
  0 ≤ c → round_up c 8 < 2 ^ 32 → align_up c (32 / 4) = round_up c 8.
Proof.
  intros Hc Hr. unfold align_up, round_up in *.
  change (32 / 4 - 1) with (Z.ones 3). change (8 - 1) with 7 in *.
  rewrite <- Z.ldiff_land, Z.ldiff_ones_r by lia.
  rewrite Z.shiftr_div_pow2, Z.shiftl_mul_pow2 by lia.
  change (2 ^ 3) with 8. change (c + Z.ones 3) with (c + 7).
  pose proof (Z.div_pos (c + 7) 8 ltac:(lia) ltac:(lia)).
  rewrite u32_small by lia. lia.
Qed.

Lemma round_up_granule c :
  0 ≤ c → round_up c 8 mod 8 = 0 ∧ c ≤ round_up c 8 < c + 8.
Proof.
  intros Hc. unfold round_up. change (8 - 1) with 7. split.
  - rewrite Z.mul_comm. apply Z.mod_mul. lia.
  - pose proof (Z.div_mod (c + 7) 8 ltac:(lia)).
    pose proof (Z.mod_pos_bound (c + 7) 8 ltac:(lia)). lia.
Qed.

Lemma padLoop_step alignedSize b m :
  curSize b < u32 alignedSize →
  padLoop alignedSize b m
  = padLoop alignedSize (set_curSize b (u32 (curSize b + 1)))
      (<[buffer b + curSize b := fillerWord]> m).
Proof.
  intros Hlt. rewrite padLoop_equation_1.
  destruct (decide (curSize b < u32 alignedSize)) as [l | n]; [| lia].
  apply padLoop_clause_1_equation_1.
Qed.

Lemma padLoop_stop alignedSize b m :
  ¬ curSize b < u32 alignedSize → padLoop alignedSize b m = (b, m).
Proof.
  intros Hge. rewrite padLoop_equation_1.
  destruct (decide (curSize b < u32 alignedSize)) as [l | n]; [lia |].
  reflexivity.
Qed.

(** The loop writes the filler word at the indices from [curSize] up to
    [alignedSize], leaves every other word alone, and ends with [curSize]
    at [alignedSize] (or where it was, if that is further). *)
Lemma padLoop_spec alignedSize b m :
  0 ≤ curSize b < 2 ^ 32 →
  (padLoop alignedSize b m).1
  = set_curSize b (Z.max (curSize b) (u32 alignedSize))
  ∧ ∀ x, (padLoop alignedSize b m).2 !! x
         = if decide (buffer b + curSize b ≤ x < buffer b + u32 alignedSize)
           then Some fillerWord else m !! x.
Proof.
  funelim (padLoop alignedSize b m); intros Hcur.
  - pose proof (u32_range alignedSize) as Ha.
    assert (u32 (curSize b + 1) = curSize b + 1) as Hinc
      by (apply u32_small; lia).
    destruct H as [Hb Hm]; [simpl; lia |].
    rewrite Hinc in *. simpl in Hb, Hm. split.
    + rewrite Hb. destruct b; unfold set_curSize; simpl in *. f_equal. lia.
    + intros x. rewrite Hm.
      destruct (decide (x = buffer b + curSize b)) as [-> | Hx].
      * rewrite lookup_insert_eq. repeat case_decide; try lia; reflexivity.
      * rewrite lookup_insert_ne by congruence.
        repeat case_decide; try lia; reflexivity.
  - simpl. split.
    + destruct b; unfold set_curSize; simpl in *. f_equal. lia.
    + intros x.
      destruct (decide (buffer b + curSize b ≤ x < buffer b + u32 alignedSize));
        [lia | reflexivity].
Qed.

(** What [padCommandBuffer] does when its check passes, on 32-bit
    fields. *)
Lemma padCommandBuffer_done b m b' m' :
  0 ≤ curSize b < 2 ^ 32 →
  padCommandBuffer b m = Some (b', m') →
  align_up (curSize b) (32 / 4) ≤ maxSize b
  ∧ b' = set_curSize b (Z.max (curSize b) (align_up (curSize b) (32 / 4)))
  ∧ ∀ x, m' !! x
         = if decide (buffer b + curSize b ≤ x
                      < buffer b + align_up (curSize b) (32 / 4))
           then Some fillerWord else m !! x.
Proof.
  intros Hcur. unfold padCommandBuffer.
  destruct (Z.leb_spec (align_up (curSize b) (32 / 4)) (maxSize b)) as [Hle | Hgt];
    [| discriminate].
  intros Hpad. injection Hpad as Hpad.
  pose proof (padLoop_spec (align_up (curSize b) (32 / 4)) b m Hcur) as [Hb Hm].
  rewrite Hpad in Hb, Hm. simpl in Hb, Hm.
  assert (u32 (align_up (curSize b) (32 / 4)) = align_up (curSize b) (32 / 4))
    as Hidem by apply u32_idemp.
  rewrite Hidem in Hb, Hm. auto.
Qed.

(** C2, as stated, fails on the granule: a descriptor with [curSize = 4]
    and [maxSize = 8] is padded to 8 words, with filler written at index 4,
    although 4 already is a multiple of 4. *)
Lemma padCommandBuffer_granule_not_4 :
  4 ≤ 8
  ∧ padCommandBuffer (mkBuffer true 0 0x1000 4 8 None) ∅
    = Some (mkBuffer true 0 0x1000 8 8 None,
            <[0x1004 := fillerWord]> (<[0x1005 := fillerWord]>
              (<[0x1006 := fillerWord]> (<[0x1007 := fillerWord]> ∅))))
  ∧ round_up 4 4 = 4
  ∧ 8 ≠ round_up 4 4.
Proof.
  split; [lia |]. split; [vm_compute; reflexivity |].
  split; [reflexivity | vm_compute; discriminate].
Qed.

(** The check of [padCommandBuffer] is about the 8-word round-up, so
    [curSize ≤ maxSize] does not keep a call from aborting. *)
Example padCommandBuffer_aborts_below_granule :
  padCommandBuffer (mkBuffer true 0 0x1000 1 1 None) ∅ = None.
Proof. vm_compute. reflexivity. Qed.

(** C2, amended.  For every buffer descriptor for which [curSize] rounded
    up to the next multiple of 8 words (32 bytes) is at most [maxSize],
    [padCommandBuffer] does not abort and writes the filler word
    [byte_swap(0xBEEF2929)] at [buffer[curSize]], [buffer[curSize + 1]], ...
    up to that multiple of 8, touching no other word and leaving [curSize]
    equal to the old [curSize] rounded up to the next multiple of 8. *)
Theorem padCommandBuffer_pads (b : Buffer) (m : gmap Z Z) :
  0 ≤ curSize b →
  maxSize b < 2 ^ 32 →
  round_up (curSize b) 8 ≤ maxSize b →
  ∃ m', padCommandBuffer b m
        = Some (set_curSize b (round_up (curSize b) 8), m')
    ∧ (∀ i, curSize b ≤ i < round_up (curSize b) 8 →
            m' !! (buffer b + i) = Some fillerWord)
    ∧ (∀ i, ¬ (curSize b ≤ i < round_up (curSize b) 8) →
            m' !! (buffer b + i) = m !! (buffer b + i))
    ∧ round_up (curSize b) 8 mod 8 = 0
    ∧ curSize b ≤ round_up (curSize b) 8 < curSize b + 8.
Proof.
  intros Hcur Hmax Hfit.
  destruct (round_up_granule (curSize b) Hcur) as [Hmod Hbounds].
  assert (align_up (curSize b) (32 / 4) = round_up (curSize b) 8) as Halign
    by (apply align_up_granule; lia).
  destruct (padCommandBuffer b m) as [[b' m'] |] eqn:Hpad.
  - apply padCommandBuffer_done in Hpad as (_ & -> & Hm); [| lia].
    rewrite Halign in *. exists m'.
    rewrite Z.max_r by lia. split; [reflexivity |].
    repeat split; try lia.
    + intros i Hi. rewrite Hm. destruct (decide _); [reflexivity | lia].
    + intros i Hi. rewrite Hm. destruct (decide _); [lia | reflexivity].
  - unfold padCommandBuffer in Hpad. rewrite Halign in Hpad.
    destruct (Z.leb_spec (round_up (curSize b) 8) (maxSize b));
      [discriminate | lia].
Qed.

Lemma padCommandBuffer_pads_witness :
  ∃ m', padCommandBuffer (mkBuffer true 0 0x1000 101 0x200 None) ∅
        = Some (mkBuffer true 0 0x1000 (round_up 101 8) 0x200 None, m')
    ∧ (∀ i, 101 ≤ i < round_up 101 8 → m' !! (0x1000 + i) = Some fillerWord)
    ∧ (∀ i, ¬ (101 ≤ i < round_up 101 8) →
            m' !! (0x1000 + i) = (∅ : gmap Z Z) !! (0x1000 + i))
    ∧ round_up 101 8 mod 8 = 0
    ∧ 101 ≤ round_up 101 8 < 101 + 8.
Proof.
  apply (padCommandBuffer_pads (mkBuffer true 0 0x1000 101 0x200 None) ∅).
  - simpl; lia.
  - simpl; lia.
  - vm_compute; discriminate.
Defined.

(** C10.  For every descriptor whose [curSize] is at most [maxSize], and
    for every descriptor whose [curSize] is at most 0xFFFFFFF8 (so that the
    round-up stays a 32-bit number), [padCommandBuffer] aborts unless
    [align_up(curSize, 32 / 4)] is at most [maxSize]; when it does not abort,
    [buffer] and [maxSize] are unchanged, every word it writes is at an
    index from the old [curSize] up to, and strictly below, [maxSize], and
    the resulting [curSize] is at most [maxSize]. *)
Theorem padCommandBuffer_within_maxSize (b : Buffer) (m : gmap Z Z) :
  0 ≤ curSize b < 2 ^ 32 →
  curSize b ≤ maxSize b ∨ curSize b ≤ 0xFFFFFFF8 →
  (padCommandBuffer b m = None ↔ maxSize b < align_up (curSize b) (32 / 4))
  ∧ ∀ b' m', padCommandBuffer b m = Some (b', m') →
      buffer b' = buffer b
      ∧ maxSize b' = maxSize b
      ∧ (∀ i, ¬ (curSize b ≤ i < maxSize b) →
              m' !! (buffer b + i) = m !! (buffer b + i))
      ∧ curSize b ≤ curSize b' ≤ maxSize b.
Proof.
  intros Hcur Hvalid. split.
  - unfold padCommandBuffer.
    destruct (Z.leb_spec (align_up (curSize b) (32 / 4)) (maxSize b));
      split; intros; try discriminate; try lia; reflexivity.
  - intros b' m' Hpad.
    apply padCommandBuffer_done in Hpad as (Hle & -> & Hm); [| exact Hcur].
    simpl. repeat split.
    + intros i Hi. rewrite Hm. destruct (decide _); [lia | reflexivity].
    + lia.
    + destruct Hvalid as [Hin | Hsmall]; [lia |].
      pose proof (round_up_granule (curSize b) ltac:(lia)) as [_ Hr].
      rewrite align_up_granule in * by lia. lia.
Qed.

Lemma padCommandBuffer_within_maxSize_witness :
  (padCommandBuffer (mkBuffer true 0 0x1000 101 0x200 None) ∅ = None
     ↔ 0x200 < align_up 101 (32 / 4))
  ∧ ∀ b' m', padCommandBuffer (mkBuffer true 0 0x1000 101 0x200 None) ∅
             = Some (b', m') →
      buffer b' = 0x1000
      ∧ maxSize b' = 0x200
      ∧ (∀ i, ¬ (101 ≤ i < 0x200) →
              m' !! (0x1000 + i) = (∅ : gmap Z Z) !! (0x1000 + i))
      ∧ 101 ≤ curSize b' ≤ 0x200.
Proof.
  apply (padCommandBuffer_within_maxSize
           (mkBuffer true 0 0x1000 101 0x200 None) ∅).
  - simpl; lia.
  - left. simpl; lia.
Defined.

(** ** The lease manager *)

Lemma bind_Done {A B} (m : Outcome A) (f : A → Outcome B) r :
  m ≫= f = Done r ↔ ∃ a, m = Done a ∧ f a = Done r.
Proof.
  destruct m as [a | |]; simpl; split.
  - intros H. exists a. auto.
  - intros (a' & Ha & H). injection Ha as ->. exact H.
  - discriminate.
  - intros (a' & Ha & _). discriminate.
  - discriminate.
  - intros (a' & Ha & _). discriminate.
Qed.

Lemma checked_Done {A} (o : option A) a : checked o = Done a ↔ o = Some a.
Proof.
  destruct o; simpl; split; intros H; try discriminate;
    injection H as ->; reflexivity.
Qed.

(** C8.  When [allocateCommandBuffer] is called on a core other than the
    main graphics core while no lease is outstanding, it logs a warning and
    returns [nullptr]; it does not abort, and the ring ([head], [tail],
    [skipped], the bounds), the lease flag and the rest of the state are
    as before the call. *)
Theorem allocateCommandBuffer_off_main_core (mainCore : nat)
    (wait : State → Outcome State) (fuel core : nat) (st : State) (size : Z) :
  core ≠ mainCore →
  sBufferPoolLeased st = false →
  ∃ st', allocateCommandBuffer mainCore wait fuel core st size
         = Done (st', None)
    ∧ gLog st' = gLog st ++ [nonMainCoreWarning]
    ∧ sBufferPool st' = sBufferPool st
    ∧ sBufferPoolLeased st' = false
    ∧ sBufferItemPool st' = sBufferItemPool st
    ∧ sActiveBuffer st' = sActiveBuffer st
    ∧ heap st' = heap st
    ∧ memory st' = memory st
    ∧ gpuQueue st' = gpuQueue st.
Proof.
  intros Hcore Hleased. unfold allocateCommandBuffer. rewrite Hleased.
  destruct (Nat.eqb_spec mainCore core) as [Heq | _]; [congruence |]. simpl.
  eexists. split; [reflexivity |]. simpl. repeat split; auto.
Qed.

Lemma allocateCommandBuffer_off_main_core_witness :
  ∃ st', allocateCommandBuffer 0%nat retireOldest 0 1%nat initialState 0x100
         = Done (st', None)
    ∧ gLog st' = gLog initialState ++ [nonMainCoreWarning]
    ∧ sBufferPool st' = sBufferPool initialState
    ∧ sBufferPoolLeased st' = false
    ∧ sBufferItemPool st' = sBufferItemPool initialState
    ∧ sActiveBuffer st' = sActiveBuffer initialState
    ∧ heap st' = heap initialState
    ∧ memory st' = memory initialState
    ∧ gpuQueue st' = gpuQueue initialState.
Proof.
  apply (allocateCommandBuffer_off_main_core 0%nat retireOldest 0 1%nat
           initialState 0x100).
  - lia.
  - reflexivity.
Defined.

(** The lease flag is checked before the core: with a lease outstanding
    the same call aborts. *)
Example lease_check_precedes_core_check :
  allocateCommandBuffer 0%nat retireOldest 0 1%nat
    (set_sBufferPoolLeased initialState true) 0x100 = Aborted.
Proof. reflexivity. Qed.

(** ** [initCommandBufferPool] *)

Lemma allocateFromPool_fresh b size s wanted allocatedSize :
  Z.max 0x100 wanted ≤ size < 2 ^ 32 →
  allocateFromPool (mkBufferPool b (b + size) b nullptr s) wanted allocatedSize
  = Some (mkBufferPool b (b + size) (b + Z.min 0x20000 size) b s,
          b, Z.min 0x20000 size).
Proof.
  intros Hsize. unfold_pool.
  replace (b + size - b) with size by lia.
  rewrite (u32_small size) by lia.
  zcompare; try lia; reflexivity.
Qed.

Lemma allocateLoop_fresh wait fuel st b size s wanted allocatedSize :
  b ≠ nullptr →
  Z.max 0x100 wanted ≤ size < 2 ^ 32 →
  sBufferPool st = mkBufferPool b (b + size) b nullptr s →
  allocateLoop wait fuel st wanted allocatedSize
  = Done (set_sBufferPool st
            (mkBufferPool b (b + size) (b + Z.min 0x20000 size) b s),
          b, Z.min 0x20000 size).
Proof.
  intros Hb Hsize Hpool.
  destruct fuel; simpl; rewrite Hpool, allocateFromPool_fresh by exact Hsize;
    destruct (Z.eqb_spec b nullptr); congruence.
Qed.

(** A descriptor taken from the free list or from [new] can be filled
    in, provided the head of the free list is a descriptor of the heap. *)
Lemma allocate_and_fill st dl cur max buf :
  (∀ cb, sBufferItemPool st = Some cb → is_Some (heap st !! cb)) →
  ∃ st' cb nxt,
    (allocateBufferObj st ≫= λ '(st1, cb),
       fillBufferObj st1 cb dl cur max buf ≫= λ st2, mret (st2, cb))
    = Done (st', cb)
    ∧ heap st' !! cb = Some (mkBuffer dl 0 buf cur max nxt)
    ∧ sBufferPool st' = sBufferPool st
    ∧ sBufferPoolLeased st' = sBufferPoolLeased st
    ∧ sActiveBuffer st' = sActiveBuffer st
    ∧ memory st' = memory st
    ∧ gpuQueue st' = gpuQueue st
    ∧ gLog st' = gLog st.
Proof.
  intros Hfree. unfold allocateBufferObj, fillBufferObj, deref.
  destruct (sBufferItemPool st) as [cb |] eqn:Hpool.
  - destruct (Hfree cb eq_refl) as [b Hb]. rewrite Hb. simpl. rewrite Hb. simpl.
    eexists _, cb, (next b). split; [reflexivity |]. simpl.
    rewrite list_lookup_insert_eq by (eapply lookup_lt_Some; eauto).
    repeat split; reflexivity.
  - simpl. rewrite lookup_app_r by lia. rewrite Nat.sub_diag. simpl.
    eexists _, (length (heap st)), None. split; [reflexivity |]. simpl.
    rewrite list_lookup_insert_eq by (rewrite length_app; simpl; lia).
    repeat split; reflexivity.
Qed.

(** C7, as stated, fails on [skipped] and [leased], which
    [initCommandBufferPool] never assigns: a value of [skipped] left by
    earlier use survives the call, and with [leased] still set the call
    aborts in [allocateCommandBuffer] instead of obtaining a lease. *)
Lemma initCommandBufferPool_keeps_skipped_and_leased :
  sBufferPoolSkipped
    (sBufferPool
       (resetPoolPointers
          (set_sBufferPool initialState (mkBufferPool 0 0 0 0 0x80))
          0x1000 0x40000)) = 0x80
  ∧ initCommandBufferPool 0%nat retireOldest 0 0%nat
      (set_sBufferPool initialState (mkBufferPool 0 0 0 0 0x80)) 0x1000 0x40000
    = Done (mkState None true
              (mkBufferPool 0x1000 0x41000 0x21000 0x1000 0x80)
              [Some 0%nat; None; None]
              [mkBuffer false 0 0x1000 0 0x20000 None] ∅ [] [])
  ∧ initCommandBufferPool 0%nat retireOldest 0 0%nat
      (set_sBufferPoolLeased initialState true) 0x1000 0x40000
    = Aborted.
Proof. repeat split; vm_compute; reflexivity. Qed.

(** C7, amended.  [initCommandBufferPool(base, size)], called on the main
    graphics core, sets the bounds of the pool, [head = base] and
    [tail = nullptr], and leaves [skipped] and [leased] as they were,
    before it requests the initial 256-word lease.  With [leased] false (as
    at start-up) the lease is granted without waiting and becomes the first
    active buffer: [buffer = base], [curSize = 0],
    [maxSize = min(0x20000, size)], and [leased] becomes true; with
    [leased] true the call aborts. *)
Theorem initCommandBufferPool_first_lease (mainCore : nat)
    (wait : State → Outcome State) (fuel : nat) (st : State) (base size : Z) :
  base ≠ nullptr →
  0x100 ≤ size < 2 ^ 32 →
  (mainCore < length (sActiveBuffer st))%nat →
  (∀ cb, sBufferItemPool st = Some cb → is_Some (heap st !! cb)) →
  sBufferPool (resetPoolPointers st base size)
  = mkBufferPool base (base + size) base nullptr
      (sBufferPoolSkipped (sBufferPool st))
  ∧ sBufferPoolLeased (resetPoolPointers st base size) = sBufferPoolLeased st
  ∧ initCommandBufferPool mainCore wait fuel mainCore st base size
    = (allocateCommandBuffer mainCore wait fuel mainCore
         (resetPoolPointers st base size) 0x100
       ≫= λ '(st2, cb), mret (set_sActiveBuffer st2 mainCore cb))
  ∧ (sBufferPoolLeased st = true →
     initCommandBufferPool mainCore wait fuel mainCore st base size = Aborted)
  ∧ (sBufferPoolLeased st = false →
     ∃ st' cb b,
       initCommandBufferPool mainCore wait fuel mainCore st base size = Done st'
       ∧ activeBuffer st' mainCore = Some cb
       ∧ heap st' !! cb = Some b
       ∧ displayList b = false
       ∧ buffer b = base
       ∧ curSize b = 0
       ∧ maxSize b = Z.min 0x20000 size
       ∧ sBufferPoolLeased st' = true
       ∧ sBufferPool st'
         = mkBufferPool base (base + size) (base + Z.min 0x20000 size) base
             (sBufferPoolSkipped (sBufferPool st))).
Proof.
  intros Hbase Hsize Hcore Hfree.
  assert (Hinit : initCommandBufferPool mainCore wait fuel mainCore st base size
    = (allocateCommandBuffer mainCore wait fuel mainCore
         (resetPoolPointers st base size) 0x100
       ≫= λ '(st2, cb), mret (set_sActiveBuffer st2 mainCore cb))).
  { unfold initCommandBufferPool. rewrite Nat.eqb_refl. reflexivity. }
  split; [reflexivity |]. split; [reflexivity |]. split; [exact Hinit |].
  rewrite Hinit. unfold allocateCommandBuffer. simpl. split.
  - intros ->. reflexivity.
  - intros ->. rewrite Nat.eqb_refl. simpl.
    rewrite (allocateLoop_fresh wait fuel _ base size
               (sBufferPoolSkipped (sBufferPool st)) 0x100 0 Hbase)
      by (try reflexivity; lia).
    simpl.
    destruct (allocate_and_fill
                (set_sBufferPool (resetPoolPointers st base size)
                   (mkBufferPool base (base + size)
                      (base + Z.min 0x20000 size) base
                      (sBufferPoolSkipped (sBufferPool st))))
                false 0 (Z.min 0x20000 size) base)
      as (st' & cb & nxt & Hrun & Hcb & Hpool & _ & Hact & _); [exact Hfree |].
    apply bind_Done in Hrun as ([st1 cb1] & Halloc & Hfill).
    apply bind_Done in Hfill as (st2 & Hfill & Hret).
    injection Hret as -> ->.
    rewrite Halloc. simpl. rewrite Hfill. simpl.
    eexists _, cb, _. split; [reflexivity |].
    unfold activeBuffer. simpl. rewrite Hact. simpl.
    rewrite list_lookup_insert_eq by exact Hcore.
    repeat split; try exact Hcb; try reflexivity. exact Hpool.
Qed.

Lemma initCommandBufferPool_first_lease_witness :
  sBufferPool (resetPoolPointers initialState 0x1000 0x40000)
  = mkBufferPool 0x1000 (0x1000 + 0x40000) 0x1000 nullptr
      (sBufferPoolSkipped (sBufferPool initialState))
  ∧ sBufferPoolLeased (resetPoolPointers initialState 0x1000 0x40000)
    = sBufferPoolLeased initialState
  ∧ initCommandBufferPool 0%nat retireOldest 0 0%nat initialState 0x1000 0x40000
    = (allocateCommandBuffer 0%nat retireOldest 0 0%nat
         (resetPoolPointers initialState 0x1000 0x40000) 0x100
       ≫= λ '(st2, cb), mret (set_sActiveBuffer st2 0%nat cb))
  ∧ (sBufferPoolLeased initialState = true →
     initCommandBufferPool 0%nat retireOldest 0 0%nat initialState 0x1000 0x40000
     = Aborted)
  ∧ (sBufferPoolLeased initialState = false →
     ∃ st' cb b,
       initCommandBufferPool 0%nat retireOldest 0 0%nat initialState 0x1000
         0x40000 = Done st'
       ∧ activeBuffer st' 0%nat = Some cb
       ∧ heap st' !! cb = Some b
       ∧ displayList b = false
       ∧ buffer b = 0x1000
       ∧ curSize b = 0
       ∧ maxSize b = Z.min 0x20000 0x40000
       ∧ sBufferPoolLeased st' = true
       ∧ sBufferPool st'
         = mkBufferPool 0x1000 (0x1000 + 0x40000)
             (0x1000 + Z.min 0x20000 0x40000) 0x1000
             (sBufferPoolSkipped (sBufferPool initialState))).
Proof.
  apply (initCommandBufferPool_first_lease 0%nat retireOldest 0 initialState
           0x1000 0x40000).
  - unfold nullptr; lia.
  - lia.
  - simpl; lia.
  - simpl. intros cb Hcb. discriminate.
Defined.

(** Scenario S1 of the specification: after [init(base, 0x40000)] the
    active buffer sits at the base with the capped size, and the lease is
    out. *)
Example init_scenario :
  initCommandBufferPool 0%nat retireOldest 0 0%nat initialState 0x1000 0x40000
  = Done (mkState None true (mkBufferPool 0x1000 0x41000 0x21000 0x1000 0)
            [Some 0%nat; None; None]
            [mkBuffer false 0 0x1000 0 0x20000 None] ∅ [] []).
Proof. vm_compute. reflexivity. Qed.

(** ** [flushCommandBuffer] on a pool-backed buffer *)

(** C3, as stated, fails on the padding, which [flushCommandBuffer] only
    does for display lists: a pool-backed buffer holding one word is queued
    with [curSize = 1], no filler word is written, and the next lease starts
    at the word right behind it. *)
Lemma flushCommandBuffer_does_not_pad :
  flushCommandBuffer 0%nat retireOldest (λ _ _ _, (nullptr, 0)) 0 0%nat
    (mkState None true (mkBufferPool 0x1000 0x41000 0x21000 0x1000 0)
       [Some 0%nat; None; None] [mkBuffer false 0 0x1000 1 0x20000 None]
       {[0x1000 := 0xC0001000]} [] [])
    0x100
  = Done (mkState None true (mkBufferPool 0x1000 0x41000 0x21001 0x1000 0)
            [Some 1%nat; None; None]
            [mkBuffer false 0 0x1000 1 1 None;
             mkBuffer false 0 0x1001 0 0x20000 None]
            {[0x1000 := 0xC0001000]} [0%nat] [],
          Some 1%nat)
  ∧ 1 mod (32 / 4) ≠ 0
  ∧ ({[0x1000 := 0xC0001000]} : gmap Z Z) !! 0x1001 ≠ Some fillerWord.
Proof.
  split; [vm_compute; reflexivity |].
  split; vm_compute; discriminate.
Qed.

(** C3, amended.  When [flushCommandBuffer(neededWords)] is called with a
    pool-backed active buffer, it calls [flushActiveCommandBuffer] and then
    installs the result of [allocateCommandBuffer(neededWords)] as the new
    active buffer.  The flush does not pad: it writes no word, leaves
    [curSize] as it is, clears the lease flag, gives the unused words back
    with [returnToPool], sets [maxSize] to [curSize], and queues the
    descriptor (or, with [curSize = 0], puts it on the free list). *)
Theorem flushCommandBuffer_pool_backed (mainCore : nat)
    (wait : State → Outcome State) (overrun : Z → Z → Z → Z * Z)
    (fuel core : nat) (st : State) (neededWords : Z) (cb : nat) (b : Buffer) :
  activeBuffer st core = Some cb →
  heap st !! cb = Some b →
  displayList b = false →
  flushCommandBuffer mainCore wait overrun fuel core st neededWords
  = (flushActiveCommandBuffer core st ≫= λ st1,
       allocateCommandBuffer mainCore wait fuel core st1 neededWords
       ≫= λ '(st2, r), mret (set_sActiveBuffer st2 core r, r))
  ∧ ∀ st1, flushActiveCommandBuffer core st = Done st1 →
      memory st1 = memory st
      ∧ sBufferPoolLeased st = true
      ∧ sBufferPoolLeased st1 = false
      ∧ returnToPool (sBufferPool st) (buffer b) (curSize b) (maxSize b)
        = Some (sBufferPool st1)
      ∧ (∃ nxt, heap st1 !! cb
                = Some (mkBuffer false (submitTime b) (buffer b) (curSize b)
                          (curSize b) nxt))
      ∧ (curSize b ≠ 0 →
         gpuQueue st1 = gpuQueue st ++ [cb]
         ∧ sBufferItemPool st1 = sBufferItemPool st)
      ∧ (curSize b = 0 →
         gpuQueue st1 = gpuQueue st ∧ sBufferItemPool st1 = Some cb)
      ∧ sActiveBuffer st1 = <[core := None]> (sActiveBuffer st).
Proof.
  intros Hactive Hb Hdl. split.
  - unfold flushCommandBuffer, deref. rewrite Hactive, Hb. simpl.
    rewrite Hdl. reflexivity.
  - intros st1. unfold flushActiveCommandBuffer, deref.
    rewrite Hactive, Hb. simpl. rewrite Hdl.
    destruct (sBufferPoolLeased st) eqn:Hleased; [| discriminate]. simpl.
    destruct (returnToPool (sBufferPool st) (buffer b) (curSize b) (maxSize b))
      as [p |] eqn:Hret; [| discriminate]. simpl.
    pose proof (lookup_lt_Some _ _ _ Hb) as Hlt.
    destruct (Z.eqb_spec (curSize b) 0) as [Hzero | Hnonzero].
    + unfold freeBufferObj, deref. simpl.
      rewrite list_lookup_insert_eq by exact Hlt. simpl.
      intros Hdone. injection Hdone as <-. simpl.
      rewrite list_lookup_insert_eq by (rewrite length_insert; exact Hlt).
      unfold set_next, set_maxSize. simpl. rewrite Hdl.
      repeat split; eauto; congruence.
    + simpl. intros Hdone. injection Hdone as <-. simpl.
      rewrite list_lookup_insert_eq by exact Hlt.
      unfold set_maxSize. simpl. rewrite Hdl.
      repeat split; eauto; congruence.
Qed.

Lemma flushCommandBuffer_pool_backed_witness :
  flushCommandBuffer 0%nat retireOldest (λ _ _ _, (nullptr, 0)) 0 0%nat
    (mkState None true (mkBufferPool 0x1000 0x41000 0x21000 0x1000 0)
       [Some 0%nat; None; None] [mkBuffer false 0 0x1000 101 0x20000 None]
       ∅ [] [])
    0x100
  = (flushActiveCommandBuffer 0%nat
       (mkState None true (mkBufferPool 0x1000 0x41000 0x21000 0x1000 0)
          [Some 0%nat; None; None] [mkBuffer false 0 0x1000 101 0x20000 None]
          ∅ [] [])
     ≫= λ st1,
       allocateCommandBuffer 0%nat retireOldest 0 0%nat st1 0x100
       ≫= λ '(st2, r), mret (set_sActiveBuffer st2 0%nat r, r)).
Proof.
  apply (flushCommandBuffer_pool_backed 0%nat retireOldest
           (λ _ _ _, (nullptr, 0)) 0 0%nat
           (mkState None true (mkBufferPool 0x1000 0x41000 0x21000 0x1000 0)
              [Some 0%nat; None; None]
              [mkBuffer false 0 0x1000 101 0x20000 None] ∅ [] [])
           0x100 0%nat (mkBuffer false 0 0x1000 101 0x20000 None)).
  - reflexivity.
  - reflexivity.
  - reflexivity.
Defined.

(** Scenario S2 of the specification, as the code runs it: 101 words are
    queued as 101 words, and the next buffer starts at [base + 101]. *)
Example flush_scenario :
  flushCommandBuffer 0%nat retireOldest (λ _ _ _, (nullptr, 0)) 0 0%nat
    (mkState None true (mkBufferPool 0x1000 0x41000 0x21000 0x1000 0)
       [Some 0%nat; None; None] [mkBuffer false 0 0x1000 101 0x20000 None]
       ∅ [] [])
    0x100
  = Done (mkState None true (mkBufferPool 0x1000 0x41000 0x21065 0x1000 0)
            [Some 1%nat; None; None]
            [mkBuffer false 0 0x1000 101 101 None;
             mkBuffer false 0 0x1065 0 0x20000 None]
            ∅ [0%nat] [],
          Some 1%nat).
Proof. vm_compute. reflexivity. Qed.

(** The display-list branch does pad before it asks the guest for more
    room. *)
Example flush_display_list_pads :
  flushCommandBuffer 0%nat retireOldest (λ _ _ _, (0x8000, 4096)) 0 1%nat
    (mkState None false (mkBufferPool 0x1000 0x41000 0x1000 nullptr 0)
       [None; Some 0%nat; None] [mkBuffer true 0 0x5000 6 0x200 None]
       ∅ [] [])
    600
  = Done (mkState None false (mkBufferPool 0x1000 0x41000 0x1000 nullptr 0)
            [None; Some 0%nat; None] [mkBuffer true 0 0x8000 0 1024 None]
            (<[0x5006 := fillerWord]> (<[0x5007 := fillerWord]> ∅)) [] [],
          Some 0%nat).
Proof. vm_compute. reflexivity. Qed.

(** A full pool makes the main core wait; the retirement of the oldest
    buffer lets the allocation wrap around. *)
Example allocate_after_retirement :
  allocateCommandBuffer 0%nat retireOldest 1 0%nat
    (mkState None false (mkBufferPool 0x1000 0x41000 0x41000 0x1000 0)
       [None; None; None]
       [mkBuffer false 0 0x1000 0x20000 0x20000 None;
        mkBuffer false 0 0x21000 0x20000 0x20000 None]
       ∅ [0%nat; 1%nat] [])
    0x100
  = Done (mkState None true (mkBufferPool 0x1000 0x41000 0x21000 0x21000 0)
            [None; None; None]
            [mkBuffer false 0 0x1000 0 0x20000 None;
             mkBuffer false 0 0x21000 0x20000 0x20000 None]
            ∅ [1%nat] [],
          Some 0%nat)
  ∧ allocateCommandBuffer 0%nat retireOldest 0 0%nat
      (mkState None false (mkBufferPool 0x1000 0x41000 0x41000 0x1000 0)
         [None; None; None]
         [mkBuffer false 0 0x1000 0x20000 0x20000 None;
          mkBuffer false 0 0x21000 0x20000 0x20000 None]
         ∅ [0%nat; 1%nat] [])
      0x100
    = Stalled.
Proof. split; vm_compute; reflexivity. Qed.

(** Scenario S4 of the specification: on the main core
    [beginUserCommandBuffer] drains the untouched pool buffer, whose
    descriptor goes straight back to the free list and is reused for the
    display list; 600 words do not fit in 512, so the guest is asked for a
    new list; [endUserCommandBuffer] returns the used size and takes a new
    lease from the pool. *)
Example user_command_buffer_scenario :
  (initCommandBufferPool 0%nat retireOldest 0 0%nat initialState 0x1000 0x40000
   ≫= λ st, beginUserCommandBuffer 0%nat 0%nat st 0x9000 512
   ≫= λ st, getCommandBuffer 0%nat retireOldest (λ _ _ _, (0xA000, 4096)) 0
              0%nat st 600
   ≫= λ '(st, _), mret (store st 0%nat (mkBuffer true 0 0xA000 597 1024 None))
   ≫= λ st, endUserCommandBuffer 0%nat retireOldest 0 0%nat st 0xA000)
  = Done (mkState None true (mkBufferPool 0x1000 0x41000 0x21000 0x1000 0)
            [Some 0%nat; None; None]
            [mkBuffer false 0 0x1000 0 0x20000 None]
            (<[0xA255 := fillerWord]> (<[0xA256 := fillerWord]>
               (<[0xA257 := fillerWord]> ∅))) [] [],
          600).
Proof. vm_compute. reflexivity. Qed.

(** * Further properties of the pool *)

(** ** What an allocation grants *)

Lemma tiles_in l a b x m :
  tiles l a b → (x, m) ∈ l → a ≤ x ∧ x + m ≤ b ∧ 0 < m.
Proof.
  revert a. induction l as [| [y k] l IH]; simpl; intros a Hti Hin.
  - apply elem_of_nil in Hin. contradiction.
  - destruct Hti as (-> & Hk & Hti). pose proof (tiles_le _ _ _ Hti) as Hle.
    apply elem_of_cons in Hin as [Heq | Hin].
    + injection Heq as -> ->. lia.
    + apply IH in Hti; [lia | exact Hin].
Qed.

Lemma granted_buffer (p p' : BufferPool) (live : list (Z * Z))
    (wanted allocatedSize buf n : Z) :
  pool_wf p live →
  allocateFromPool p wanted allocatedSize = Some (p', buf, n) →
  buf ≠ nullptr →
  Z.min 0x20000 (Z.max 0x100 wanted) ≤ n ≤ 0x20000
  ∧ sBufferPoolBase p ≤ buf
  ∧ buf + n ≤ sBufferPoolEnd p
  ∧ sBufferPoolHeadPtr p' = buf + n
  ∧ sBufferPoolBase p' = sBufferPoolBase p
  ∧ sBufferPoolEnd p' = sBufferPoolEnd p.
Proof.
  intros Hwf Halloc Hbuf. apply pool_wf_numeric in Hwf.
  destruct p as [b e h t s]. unfold_pool.
  destruct Hwf as ((Hb & Hsz) & Hs & Hh & Hcases).
  zcompare; try discriminate; u32_simpl; injection Halloc as <- <- <-;
    simpl; try lia.
Qed.

(** X1.  On a consistent ring, an allocation that hands out a buffer
    grants at least [min(0x20000, max(0x100, wanted))] and at most 0x20000
    words, inside the pool, and leaves the head right behind the buffer: a
    request above 0x20000 words is granted 0x20000 words only. *)
Theorem allocateFromPool_grant (p p' : BufferPool) (live : list (Z * Z))
    (wanted allocatedSize buf n : Z) :
  pool_wf p live →
  allocateFromPool p wanted allocatedSize = Some (p', buf, n) →
  buf ≠ nullptr →
  Z.min 0x20000 (Z.max 0x100 wanted) ≤ n ≤ 0x20000
  ∧ sBufferPoolBase p ≤ buf
  ∧ buf + n ≤ sBufferPoolEnd p
  ∧ sBufferPoolHeadPtr p' = buf + n
  ∧ sBufferPoolBase p' = sBufferPoolBase p
  ∧ sBufferPoolEnd p' = sBufferPoolEnd p.
Proof. apply granted_buffer. Qed.

Lemma allocateFromPool_grant_witness :
  Z.min 0x20000 (Z.max 0x100 0x30000) ≤ 0x20000 ≤ 0x20000
  ∧ 0x1000 ≤ 0x1000
  ∧ 0x1000 + 0x20000 ≤ 0x1000 + 0x40000
  ∧ sBufferPoolHeadPtr (mkBufferPool 0x1000 0x41000 0x21000 0x1000 0)
    = 0x1000 + 0x20000
  ∧ sBufferPoolBase (mkBufferPool 0x1000 0x41000 0x21000 0x1000 0) = 0x1000
  ∧ sBufferPoolEnd (mkBufferPool 0x1000 0x41000 0x21000 0x1000 0)
    = 0x1000 + 0x40000.
Proof.
  apply (allocateFromPool_grant (emptyPool 0x1000 0x40000)
           (mkBufferPool 0x1000 0x41000 0x21000 0x1000 0) [] 0x30000 0
           0x1000 0x20000).
  - apply pool_wf_empty; lia.
  - reflexivity.
  - unfold nullptr; lia.
Defined.

(** X2.  On a consistent ring that is not full, the buffer handed out by
    an allocation is disjoint from every live allocation. *)
Theorem allocateFromPool_disjoint (p p' : BufferPool) (live : list (Z * Z))
    (wanted allocatedSize buf n x m : Z) :
  pool_wf p live →
  ¬ ring_full p live →
  allocateFromPool p wanted allocatedSize = Some (p', buf, n) →
  buf ≠ nullptr →
  (x, m) ∈ live →
  x + m ≤ buf ∨ buf + n ≤ x.
Proof.
  intros Hwf Hfull Halloc Hbuf Hin.
  pose proof (allocateFromPool_wf _ _ _ _ _ _ _ Hwf Hfull Halloc Hbuf)
    as [_ Hwf'].
  destruct Hwf' as [(_ & _ & _ & Hl) | [(_ & _ & _ & Hti) | Hwrap]].
  - destruct live; discriminate.
  - apply tiles_snoc in Hti as (Hti & _ & _).
    left. eapply tiles_in in Hti; [| exact Hin]. lia.
  - destruct Hwrap as (l1 & l2 & Hl & _ & _ & Hht & Ht1 & Ht2).
    destruct l2 as [| r l2 _] using rev_ind.
    + rewrite app_nil_r in Hl. subst l1.
      apply tiles_snoc in Ht1 as (Ht1 & _ & _).
      left. eapply tiles_in in Ht1; [| exact Hin]. lia.
    + rewrite app_assoc in Hl. apply app_inj_tail in Hl as [-> <-].
      apply tiles_snoc in Ht2 as (Ht2 & Hn & Hh).
      apply elem_of_app in Hin as [Hin | Hin].
      * right. eapply tiles_in in Ht1; [| exact Hin]. lia.
      * left. eapply tiles_in in Ht2; [| exact Hin]. lia.
Qed.

Lemma allocateFromPool_disjoint_witness :
  0x1100 + 0x180 ≤ 0x1000 ∨ 0x1000 + 0x100 ≤ 0x1100.
Proof.
  apply (allocateFromPool_disjoint
           (mkBufferPool 0x1000 0x1300 0x1280 0x1100 0)
           (mkBufferPool 0x1000 0x1300 0x1100 0x1100 0x80)
           [(0x1100, 0x180)] 0 0 0x1000 0x100 0x1100 0x180).
  - split; [unfold pool_region; simpl; lia |]. right; left. simpl.
    repeat split; lia.
  - unfold ring_full. simpl. lia.
  - reflexivity.
  - unfold nullptr; lia.
  - constructor.
Defined.

Lemma too_large_iff (p : BufferPool) (live : list (Z * Z))
    (wanted allocatedSize : Z) :
  pool_wf p live →
  (allocateFromPool p wanted allocatedSize = None
   ↔ sBufferPoolEnd p - sBufferPoolBase p < Z.max 0x100 wanted).
Proof.
  intros Hwf. apply pool_wf_numeric in Hwf.
  destruct p as [b e h t s]. unfold_pool.
  destruct Hwf as ((Hb & Hsz) & Hs & Hh & Hcases).
  zcompare; split; intros; try discriminate; try lia; reflexivity.
Qed.

(** X3.  On a consistent ring, [allocateFromPool] aborts exactly when
    the request, raised to the 0x100-word minimum, exceeds the size of the
    whole pool. *)
Theorem allocateFromPool_aborts_iff (p : BufferPool) (live : list (Z * Z))
    (wanted allocatedSize : Z) :
  pool_wf p live →
  (allocateFromPool p wanted allocatedSize = None
   ↔ sBufferPoolEnd p - sBufferPoolBase p < Z.max 0x100 wanted).
Proof. apply too_large_iff. Qed.

Lemma allocateFromPool_aborts_iff_witness :
  allocateFromPool (emptyPool 0x1000 0x40000) 0x40001 0 = None
  ↔ sBufferPoolEnd (emptyPool 0x1000 0x40000)
    - sBufferPoolBase (emptyPool 0x1000 0x40000) < Z.max 0x100 0x40001.
Proof.
  apply (allocateFromPool_aborts_iff (emptyPool 0x1000 0x40000) [] 0x40001 0).
  apply pool_wf_empty; lia.
Defined.

(** ** In-order retirement *)

(** X4.  On a consistent ring, [freeToPool] called for any live allocation
    other than the oldest one aborts. *)
Theorem freeToPool_out_of_order_aborts (p : BufferPool)
    (live : list (Z * Z)) (i : nat) (buf n : Z) :
  pool_wf p live →
  (0 < i)%nat →
  live !! i = Some (buf, n) →
  freeToPool p buf n = None.
Proof.
  intros [Hreg Hwf] Hi Hlook.
  destruct p as [b e h t s]. destruct Hreg as [Hb Hsz].
  destruct live as [| [x m] live]; [discriminate |].
  destruct i as [| i]; [lia |]. simpl in Hlook.
  apply list_elem_of_lookup_2 in Hlook.
  unfold_pool.
  destruct Hwf as [(_ & _ & _ & Hl) | [(Hs & Ht & Hh & Hti) | Hwrap]].
  - discriminate.
  - subst s. simpl in Hti. destruct Hti as (-> & Hm & Hti).
    eapply tiles_in in Hti; [| exact Hlook].
    zcompare; simpl in *; try lia; reflexivity.
  - destruct Hwrap as (l1 & l2 & Hl & Hs & Hgap & Hht & Ht1 & Ht2).
    destruct l1 as [| [y k] l1]; simpl in Hl, Ht1.
    + subst l2. simpl in Ht2. destruct Ht2 as (-> & Hm & Ht2).
      eapply tiles_in in Ht2; [| exact Hlook].
      zcompare; simpl in *; try lia; reflexivity.
    + injection Hl as -> -> ->. destruct Ht1 as (-> & Hm & Ht1).
      pose proof (tiles_le _ _ _ Ht1) as Hle1.
      apply elem_of_app in Hlook as [Hin | Hin].
      * eapply tiles_in in Ht1; [| exact Hin].
        zcompare; simpl in *; try lia; reflexivity.
      * eapply tiles_in in Ht2; [| exact Hin].
        zcompare; simpl in *; try lia; reflexivity.
Qed.

Lemma freeToPool_out_of_order_aborts_witness :
  freeToPool (mkBufferPool 0x1000 0x41000 0x41000 0x1000 0) 0x21000 0x20000
  = None.
Proof.
  apply (freeToPool_out_of_order_aborts
           (mkBufferPool 0x1000 0x41000 0x41000 0x1000 0)
           [(0x1000, 0x20000); (0x21000, 0x20000)] 1 0x21000 0x20000).
  - split; [unfold pool_region; simpl; lia |]. right; left. simpl.
    repeat split; lia.
  - lia.
  - reflexivity.
Defined.

(** ** Padding twice *)

Lemma align_up_round_up c :
  0 ≤ c → align_up c (32 / 4) = u32 (round_up c 8).
Proof.
  intros Hc. unfold align_up, round_up.
  change (32 / 4 - 1) with (Z.ones 3). change (8 - 1) with 7.
  rewrite <- Z.ldiff_land, Z.ldiff_ones_r by lia.
  rewrite Z.shiftr_div_pow2, Z.shiftl_mul_pow2 by lia.
  change (2 ^ 3) with 8. change (c + Z.ones 3) with (c + 7).
  f_equal. lia.
Qed.

Lemma round_up_fixed c : 0 ≤ c → c mod 8 = 0 → round_up c 8 = c.
Proof.
  intros Hc Hmod. unfold round_up. change (8 - 1) with 7.
  pose proof (Z.div_mod c 8 ltac:(lia)) as Hdiv. rewrite Hmod in Hdiv.
  replace (c + 7) with (c / 8 * 8 + 7) by lia.
  rewrite Z.div_add_l by lia. change (7 / 8) with 0. lia.
Qed.

(** The 32-bit round-up of a 32-bit word is a fixed point of the
    round-up. *)
Lemma align_up_idempotent c :
  0 ≤ c < 2 ^ 32 →
  align_up (align_up c (32 / 4)) (32 / 4) = align_up c (32 / 4).
Proof.
  intros Hc. rewrite (align_up_round_up c) by lia.
  destruct (round_up_granule c ltac:(lia)) as [Hmod Hbounds].
  destruct (Z_lt_le_dec (round_up c 8) (2 ^ 32)) as [Hlt | Hge].
  - rewrite (u32_small (round_up c 8)) by lia.
    rewrite align_up_round_up by lia.
    rewrite round_up_fixed by (try exact Hmod; lia). apply u32_small. lia.
  - assert (round_up c 8 = 2 ^ 32) as ->.
    { pose proof (Z.div_mod (round_up c 8) 8 ltac:(lia)) as Hdiv.
      rewrite Hmod in Hdiv. change (2 ^ 32) with (8 * 536870912) in *. lia. }
    reflexivity.
Qed.

(** X5.  [padCommandBuffer] is idempotent: on a descriptor it has just
    padded, a second call passes the check, writes nothing and changes
    nothing. *)
Theorem padCommandBuffer_idempotent (b b' : Buffer) (m m' : gmap Z Z) :
  0 ≤ curSize b < 2 ^ 32 →
  padCommandBuffer b m = Some (b', m') →
  padCommandBuffer b' m' = Some (b', m').
Proof.
  intros Hcur Hpad.
  pose proof (padCommandBuffer_done _ _ _ _ Hcur Hpad) as (Hle & Hb' & _).
  pose proof (u32_range (Z.land (curSize b + (32 / 4 - 1))
                           (Z.lnot (32 / 4 - 1)))) as Ha.
  fold (align_up (curSize b) (32 / 4)) in Ha.
  unfold padCommandBuffer.
  assert (align_up (curSize b') (32 / 4) ≤ curSize b'
          ∧ align_up (curSize b') (32 / 4) ≤ maxSize b') as [Hstop Hmax].
  { subst b'. simpl.
    destruct (Z.max_spec (curSize b) (align_up (curSize b) (32 / 4)))
      as [[Hlt ->] | [Hge ->]].
    - rewrite align_up_idempotent by lia. lia.
    - pose proof (align_up_round_up (curSize b) ltac:(lia)) as Hr.
      pose proof (u32_range (round_up (curSize b) 8)). lia. }
  destruct (Z.leb_spec (align_up (curSize b') (32 / 4)) (maxSize b'));
    [| lia].
  rewrite padLoop_stop; [reflexivity |].
  rewrite u32_small; [lia |].
  pose proof (u32_range (Z.land (curSize b' + (32 / 4 - 1))
                           (Z.lnot (32 / 4 - 1)))) as Ha'.
  exact Ha'.
Qed.

Lemma padCommandBuffer_idempotent_witness :
  padCommandBuffer (mkBuffer true 0 0x1000 8 8 None)
    (<[0x1004 := fillerWord]> (<[0x1005 := fillerWord]>
       (<[0x1006 := fillerWord]> (<[0x1007 := fillerWord]> ∅))))
  = Some (mkBuffer true 0 0x1000 8 8 None,
          <[0x1004 := fillerWord]> (<[0x1005 := fillerWord]>
            (<[0x1006 := fillerWord]> (<[0x1007 := fillerWord]> ∅)))).
Proof.
  apply (padCommandBuffer_idempotent (mkBuffer true 0 0x1000 4 8 None) _ ∅).
  - simpl; lia.
  - vm_compute; reflexivity.
Defined.

(** ** The descriptor free list *)

Lemma is_freelist_valid h top l cb :
  is_freelist h top l → cb ∈ l → is_Some (h !! cb).
Proof.
  induction 1 as [| c b l Hc Hnot Hrest IH]; intros Hin.
  - apply elem_of_nil in Hin. contradiction.
  - apply elem_of_cons in Hin as [-> | Hin]; [eauto | auto].
Qed.

(** A store to a descriptor that is not on the list leaves the list as it
    is. *)
Lemma is_freelist_insert h top l cb b :
  is_freelist h top l → cb ∉ l → is_freelist (<[cb := b]> h) top l.
Proof.
  induction 1 as [| c b0 l Hc Hnot Hrest IH]; intros Hout.
  - constructor.
  - apply not_elem_of_cons in Hout as [Hne Hout].
    econstructor; [| exact Hnot | apply IH; exact Hout].
    rewrite list_lookup_insert_ne by congruence. exact Hc.
Qed.

Lemma is_freelist_app h top l x :
  is_freelist h top l → is_freelist (h ++ [x]) top l.
Proof.
  induction 1 as [| c b0 l Hc Hnot Hrest IH]; [constructor |].
  econstructor; [| exact Hnot | exact IH].
  apply lookup_app_l_Some. exact Hc.
Qed.

Lemma push_on_freelist (st : State) (l : list nat) (cb : nat) (b : Buffer) :
  is_freelist (heap st) (sBufferItemPool st) l →
  cb ∉ l →
  heap st !! cb = Some b →
  ∃ st', freeBufferObj st cb = Done st'
    ∧ is_freelist (heap st') (sBufferItemPool st') (cb :: l)
    ∧ heap st' = <[cb := set_next b (sBufferItemPool st)]> (heap st)
    ∧ sBufferPool st' = sBufferPool st
    ∧ sBufferPoolLeased st' = sBufferPoolLeased st
    ∧ sActiveBuffer st' = sActiveBuffer st
    ∧ memory st' = memory st
    ∧ gpuQueue st' = gpuQueue st
    ∧ gLog st' = gLog st.
Proof.
  intros Hlist Hout Hb. unfold freeBufferObj, deref. rewrite Hb. simpl.
  eexists. split; [reflexivity |]. simpl. split; [| repeat split].
  econstructor.
  - apply list_lookup_insert_eq. eapply lookup_lt_Some; eauto.
  - exact Hout.
  - simpl. apply is_freelist_insert; assumption.
Qed.

(** X6.  [freeBufferObj] pushes: for a descriptor of the heap that is not
    on the free list, the free list afterwards is the descriptor followed by
    the old list; only the [next] field of that descriptor is written, and
    nothing outside the heap and the list head changes. *)
Theorem freeBufferObj_push (st : State) (l : list nat) (cb : nat) (b : Buffer) :
  is_freelist (heap st) (sBufferItemPool st) l →
  cb ∉ l →
  heap st !! cb = Some b →
  ∃ st', freeBufferObj st cb = Done st'
    ∧ is_freelist (heap st') (sBufferItemPool st') (cb :: l)
    ∧ heap st' = <[cb := set_next b (sBufferItemPool st)]> (heap st)
    ∧ sBufferPool st' = sBufferPool st
    ∧ sBufferPoolLeased st' = sBufferPoolLeased st
    ∧ sActiveBuffer st' = sActiveBuffer st
    ∧ memory st' = memory st
    ∧ gpuQueue st' = gpuQueue st
    ∧ gLog st' = gLog st.
Proof. apply push_on_freelist. Qed.

Lemma freeBufferObj_push_witness :
  ∃ st', freeBufferObj
           (mkState (Some 1%nat) false (emptyPool 0x1000 0x40000)
              [None; None; None]
              [mkBuffer false 0 0x1000 8 8 None;
               mkBuffer true 0 0x5000 0 0 None] ∅ [] [])
           0%nat = Done st'
    ∧ is_freelist (heap st') (sBufferItemPool st') [0%nat; 1%nat]
    ∧ heap st'
      = <[0%nat := set_next (mkBuffer false 0 0x1000 8 8 None) (Some 1%nat)]>
          [mkBuffer false 0 0x1000 8 8 None; mkBuffer true 0 0x5000 0 0 None]
    ∧ sBufferPool st' = emptyPool 0x1000 0x40000
    ∧ sBufferPoolLeased st' = false
    ∧ sActiveBuffer st' = [None; None; None]
    ∧ memory st' = ∅
    ∧ gpuQueue st' = []
    ∧ gLog st' = [].
Proof.
  apply (freeBufferObj_push
           (mkState (Some 1%nat) false (emptyPool 0x1000 0x40000)
              [None; None; None]
              [mkBuffer false 0 0x1000 8 8 None;
               mkBuffer true 0 0x5000 0 0 None] ∅ [] [])
           [1%nat] 0%nat (mkBuffer false 0 0x1000 8 8 None)).
  - simpl. eapply (freelist_cons _ 1%nat (mkBuffer true 0 0x5000 0 0 None));
      [reflexivity | apply not_elem_of_nil | constructor].
  - apply not_elem_of_cons. split; [lia | apply not_elem_of_nil].
  - reflexivity.
Defined.

Lemma pop_from_freelist (st : State) (l : list nat) :
  is_freelist (heap st) (sBufferItemPool st) l →
  ∃ st' cb,
    allocateBufferObj st = Done (st', cb)
    ∧ is_freelist (heap st') (sBufferItemPool st') (tail l)
    ∧ (cb ∉ tail l)
    ∧ is_Some (heap st' !! cb)
    ∧ (l ≠ [] → head l = Some cb ∧ heap st' = heap st)
    ∧ (l = [] →
       cb = length (heap st)
       ∧ heap st' = heap st ++ [mkBuffer false 0 nullptr 0 0 None])
    ∧ sBufferPool st' = sBufferPool st
    ∧ sBufferPoolLeased st' = sBufferPoolLeased st
    ∧ sActiveBuffer st' = sActiveBuffer st
    ∧ memory st' = memory st
    ∧ gpuQueue st' = gpuQueue st.
Proof.
  intros Hlist. unfold allocateBufferObj, deref.
  destruct (sBufferItemPool st) as [top |] eqn:Htop;
    inversion Hlist as [| cb b l' Hb Hnot Hrest]; subst.
  - rewrite Hb. simpl. eexists _, _. split; [reflexivity |]. simpl.
    split; [exact Hrest |]. split; [exact Hnot |].
    split; [eauto | repeat split; congruence].
  - simpl. eexists _, _. split; [reflexivity |]. simpl. rewrite Htop.
    split; [constructor |]. split; [apply not_elem_of_nil |].
    split; [| repeat split; congruence].
    rewrite lookup_app_r by lia. rewrite Nat.sub_diag. simpl. eauto.
Qed.

(** X7.  [allocateBufferObj] pops: with a well-formed free list it always
    returns a descriptor of the heap that is no longer on the list.  A
    non-empty list gives up its first descriptor and the heap is untouched;
    an empty list makes the heap grow by one fresh descriptor, which is
    returned, and no existing descriptor changes. *)
Theorem allocateBufferObj_pop (st : State) (l : list nat) :
  is_freelist (heap st) (sBufferItemPool st) l →
  ∃ st' cb,
    allocateBufferObj st = Done (st', cb)
    ∧ is_freelist (heap st') (sBufferItemPool st') (tail l)
    ∧ (cb ∉ tail l)
    ∧ is_Some (heap st' !! cb)
    ∧ (l ≠ [] → head l = Some cb ∧ heap st' = heap st)
    ∧ (l = [] →
       cb = length (heap st)
       ∧ heap st' = heap st ++ [mkBuffer false 0 nullptr 0 0 None])
    ∧ sBufferPool st' = sBufferPool st
    ∧ sBufferPoolLeased st' = sBufferPoolLeased st
    ∧ sActiveBuffer st' = sActiveBuffer st
    ∧ memory st' = memory st
    ∧ gpuQueue st' = gpuQueue st.
Proof. apply pop_from_freelist. Qed.

Lemma allocateBufferObj_pop_witness :
  ∃ st' cb,
    allocateBufferObj initialState = Done (st', cb)
    ∧ is_freelist (heap st') (sBufferItemPool st') (tail [])
    ∧ (cb ∉ tail [])
    ∧ is_Some (heap st' !! cb)
    ∧ (([] : list nat) ≠ [] → head [] = Some cb ∧ heap st' = heap initialState)
    ∧ (([] : list nat) = [] →
       cb = length (heap initialState)
       ∧ heap st'
         = heap initialState ++ [mkBuffer false 0 nullptr 0 0 None])
    ∧ sBufferPool st' = sBufferPool initialState
    ∧ sBufferPoolLeased st' = sBufferPoolLeased initialState
    ∧ sActiveBuffer st' = sActiveBuffer initialState
    ∧ memory st' = memory initialState
    ∧ gpuQueue st' = gpuQueue initialState.
Proof.
  apply (allocateBufferObj_pop initialState []).
  simpl. constructor.
Defined.

(** X8.  Freeing a descriptor that already heads the free list links it to
    itself: from then on [allocateBufferObj] returns that same descriptor on
    every call and never shortens the list. *)
Theorem freeBufferObj_twice_loops (st : State) (cb : nat) (b : Buffer) :
  sBufferItemPool st = Some cb →
  heap st !! cb = Some b →
  ∃ st', freeBufferObj st cb = Done st'
    ∧ heap st' !! cb = Some (set_next b (Some cb))
    ∧ allocateBufferObj st' = Done (st', cb).
Proof.
  intros Htop Hb. unfold freeBufferObj, deref. rewrite Hb, Htop. simpl.
  eexists. split; [reflexivity |].
  pose proof (lookup_lt_Some _ _ _ Hb) as Hlt.
  unfold allocateBufferObj, deref. simpl.
  rewrite list_lookup_insert_eq by exact Hlt. simpl.
  split; reflexivity.
Qed.

Lemma freeBufferObj_twice_loops_witness :
  ∃ st', freeBufferObj
           (mkState (Some 0%nat) false (emptyPool 0x1000 0x40000)
              [None; None; None] [mkBuffer true 0 0x5000 0 0 None] ∅ [] [])
           0%nat = Done st'
    ∧ heap st' !! 0%nat
      = Some (set_next (mkBuffer true 0 0x5000 0 0 None) (Some 0%nat))
    ∧ allocateBufferObj st' = Done (st', 0%nat).
Proof.
  apply (freeBufferObj_twice_loops
           (mkState (Some 0%nat) false (emptyPool 0x1000 0x40000)
              [None; None; None] [mkBuffer true 0 0x5000 0 0 None] ∅ [] [])
           0%nat (mkBuffer true 0 0x5000 0 0 None)).
  - reflexivity.
  - reflexivity.
Defined.

(** ** The size of a lease *)


Lemma allocateFromPool_same_region p p' wanted allocatedSize buf n :
  allocateFromPool p wanted allocatedSize = Some (p', buf, n) →
  sBufferPoolBase p' = sBufferPoolBase p
  ∧ sBufferPoolEnd p' = sBufferPoolEnd p.
Proof.
  intros Halloc. destruct p as [b e h t s]. unfold_pool.
  zcompare; try discriminate; injection Halloc as <- <- <-; simpl; auto.
Qed.










(** The sum [curSize + size] of [getCommandBuffer] is a 32-bit sum: a
    request large enough to wrap it is taken to fit. *)
Example getCommandBuffer_wrapped_sum :
  getCommandBuffer 0%nat (λ _, Stalled) (λ _ _ _, (nullptr, 0)) 0 0%nat
    (mkState None true (mkBufferPool 0x1000 0x41000 0x21000 0x1000 0)
       [Some 0%nat; None; None] [mkBuffer false 0 0x1000 0x10 0x20000 None]
       ∅ [] []) 0xFFFFFFF8
  = Done (mkState None true (mkBufferPool 0x1000 0x41000 0x21000 0x1000 0)
            [Some 0%nat; None; None]
            [mkBuffer false 0 0x1000 0x10 0x20000 None] ∅ [] [],
          Some 0%nat).
Proof. vm_compute. reflexivity. Qed.

(** ** Display lists *)

Lemma fillBufferObj_Done st cb dl cur max buf b :
  heap st !! cb = Some b →
  fillBufferObj st cb dl cur max buf
  = Done (store st cb (mkBuffer dl 0 buf cur max (next b))).
Proof. intros Hb. unfold fillBufferObj, deref. rewrite Hb. reflexivity. Qed.

(** Taking a descriptor and filling it in, on a well-formed free list. *)
Lemma take_descriptor st l dl cur max buf :
  is_freelist (heap st) (sBufferItemPool st) l →
  ∃ st' cb nxt,
    (allocateBufferObj st ≫= λ '(st1, cb),
       fillBufferObj st1 cb dl cur max buf ≫= λ st2, mret (st2, cb))
    = Done (st', cb)
    ∧ heap st' !! cb = Some (mkBuffer dl 0 buf cur max nxt)
    ∧ is_freelist (heap st') (sBufferItemPool st') (tail l)
    ∧ (cb ∉ tail l)
    ∧ (cb < length (heap st'))%nat
    ∧ (∀ c, c ≠ cb → (c < length (heap st))%nat →
            heap st' !! c = heap st !! c)
    ∧ (length (heap st) ≤ cb → l = [])%nat
    ∧ (cb ∈ l ∨ cb = length (heap st))
    ∧ sBufferPool st' = sBufferPool st
    ∧ sBufferPoolLeased st' = sBufferPoolLeased st
    ∧ sActiveBuffer st' = sActiveBuffer st
    ∧ memory st' = memory st
    ∧ gpuQueue st' = gpuQueue st.
Proof.
  intros Hlist.
  destruct (pop_from_freelist st l Hlist)
    as (st1 & cb & Hpop & Hlist1 & Hout & [b1 Hb1] & Hne & Hnil & Hp & Hle
        & Hact & Hmem & Hq).
  rewrite Hpop. simpl. rewrite (fillBufferObj_Done _ _ _ _ _ _ _ Hb1). simpl.
  pose proof (lookup_lt_Some _ _ _ Hb1) as Hlt.
  eexists _, cb, (next b1). split; [reflexivity |]. simpl.
  rewrite list_lookup_insert_eq by exact Hlt. split; [reflexivity |].
  split; [apply is_freelist_insert; assumption |].
  split; [exact Hout |].
  split; [rewrite length_insert; exact Hlt |].
  split.
  { intros c Hc Hclt. rewrite list_lookup_insert_ne by congruence.
    destruct l as [| c0 l].
    - destruct (Hnil eq_refl) as [_ ->]. apply lookup_app_l. exact Hclt.
    - destruct (Hne ltac:(discriminate)) as [_ ->]. reflexivity. }
  split.
  { intros Hge. destruct l as [| c0 l]; [reflexivity |].
    destruct (Hne ltac:(discriminate)) as [_ Hh]. rewrite Hh in Hlt. lia. }
  split.
  { destruct l as [| c0 l].
    - right. apply Hnil. reflexivity.
    - left. destruct (Hne ltac:(discriminate)) as [Hhd _].
      injection Hhd as ->. constructor. }
  repeat split; assumption.
Qed.

(** X11.  A display list submitted with [queueDisplayList] can always be
    retired: the descriptor goes to the end of the GPU queue with
    [curSize = maxSize = size]; [freeCommandBuffer] on it does not abort,
    leaves the ring and the memory alone, and puts the descriptor back at
    the front of the free list, which is as long as before or longer. *)
Theorem queueDisplayList_retire (st : State) (l : list nat) (buf size : Z) :
  is_freelist (heap st) (sBufferItemPool st) l →
  ∃ st1 cb nxt st2,
    queueDisplayList st buf size = Done st1
    ∧ gpuQueue st1 = gpuQueue st ++ [cb]
    ∧ heap st1 !! cb = Some (mkBuffer true 0 buf size size nxt)
    ∧ sBufferPool st1 = sBufferPool st
    ∧ sActiveBuffer st1 = sActiveBuffer st
    ∧ freeCommandBuffer st1 cb = Done st2
    ∧ sBufferPool st2 = sBufferPool st
    ∧ sBufferPoolLeased st2 = sBufferPoolLeased st
    ∧ memory st2 = memory st
    ∧ is_freelist (heap st2) (sBufferItemPool st2) (cb :: tail l).
Proof.
  intros Hlist.
  destruct (take_descriptor st l true size size buf Hlist)
    as (st' & cb & nxt & Hrun & Hcb & Hlist' & Hout & _ & _ & _ & _ & Hp & Hle
        & Hact & Hmem & Hq).
  apply bind_Done in Hrun as ([st0 cb0] & Halloc & Hrun).
  apply bind_Done in Hrun as (st0' & Hfill & Hrun).
  injection Hrun as -> ->.
  destruct (push_on_freelist (queueCommandBuffer st' cb) (tail l) cb
              (mkBuffer true 0 buf size size nxt))
    as (st2 & Hfree & Hlist2 & _ & Hp2 & Hle2 & _ & Hmem2 & _);
    [exact Hlist' | exact Hout | exact Hcb |].
  exists (queueCommandBuffer st' cb), cb, nxt, st2.
  unfold queueDisplayList. rewrite Halloc. simpl. rewrite Hfill. simpl.
  split; [reflexivity |]. split; [congruence |]. split; [exact Hcb |].
  split; [exact Hp |]. split; [exact Hact |].
  unfold freeCommandBuffer, deref. simpl. rewrite Hcb. simpl.
  rewrite Z.eqb_refl. simpl.
  split; [exact Hfree |]. simpl in *.
  repeat split; congruence.
Qed.

Lemma queueDisplayList_retire_witness :
  ∃ st1 cb nxt st2,
    queueDisplayList initialState 0x9000 0x80 = Done st1
    ∧ gpuQueue st1 = gpuQueue initialState ++ [cb]
    ∧ heap st1 !! cb = Some (mkBuffer true 0 0x9000 0x80 0x80 nxt)
    ∧ sBufferPool st1 = sBufferPool initialState
    ∧ sActiveBuffer st1 = sActiveBuffer initialState
    ∧ freeCommandBuffer st1 cb = Done st2
    ∧ sBufferPool st2 = sBufferPool initialState
    ∧ sBufferPoolLeased st2 = sBufferPoolLeased initialState
    ∧ memory st2 = memory initialState
    ∧ is_freelist (heap st2) (sBufferItemPool st2) (cb :: tail []).
Proof.
  apply (queueDisplayList_retire initialState [] 0x9000 0x80).
  simpl. constructor.
Defined.

(** Padding a descriptor whose rounded-up size fits. *)
Lemma pad_result b m :
  0 ≤ curSize b →
  maxSize b < 2 ^ 32 →
  round_up (curSize b) 8 ≤ maxSize b →
  ∃ m', padCommandBuffer b m
        = Some (set_curSize b (round_up (curSize b) 8), m')
    ∧ ∀ x, m' !! x
           = if decide (buffer b + curSize b ≤ x
                        < buffer b + round_up (curSize b) 8)
             then Some fillerWord else m !! x.
Proof.
  intros Hcur Hmax Hfit.
  destruct (round_up_granule (curSize b) Hcur) as [_ Hbounds].
  assert (align_up (curSize b) (32 / 4) = round_up (curSize b) 8) as Halign
    by (apply align_up_granule; lia).
  destruct (padCommandBuffer b m) as [[b' m'] |] eqn:Hpad.
  - apply padCommandBuffer_done in Hpad as (_ & -> & Hm); [| lia].
    rewrite Halign in *. rewrite Z.max_r by lia. eauto.
  - unfold padCommandBuffer in Hpad. rewrite Halign in Hpad.
    destruct (Z.leb_spec (round_up (curSize b) 8) (maxSize b));
      [discriminate | lia].
Qed.

(** X12.  On a core other than the main graphics core,
    [endUserCommandBuffer(buffer)] on an open display list whose padded size
    fits returns [curSize] rounded up to a multiple of 8 words, with the
    filler written over the padding; it empties the core's slot, puts the
    descriptor at the front of the free list and leaves the ring, the lease
    flag and the GPU queue alone.  Called with any other buffer pointer it
    aborts. *)
Theorem endUserCommandBuffer_used_size (mainCore : nat)
    (wait : State → Outcome State) (fuel core : nat) (st : State) (cb : nat)
    (b : Buffer) :
  core ≠ mainCore →
  (core < length (sActiveBuffer st))%nat →
  activeBuffer st core = Some cb →
  heap st !! cb = Some b →
  displayList b = true →
  0 ≤ curSize b →
  maxSize b < 2 ^ 32 →
  round_up (curSize b) 8 ≤ maxSize b →
  (∃ st',
     endUserCommandBuffer mainCore wait fuel core st (buffer b)
     = Done (st', round_up (curSize b) 8)
     ∧ activeBuffer st' core = None
     ∧ sBufferItemPool st' = Some cb
     ∧ (∀ x, memory st' !! x
             = if decide (buffer b + curSize b ≤ x
                          < buffer b + round_up (curSize b) 8)
               then Some fillerWord else memory st !! x)
     ∧ sBufferPool st' = sBufferPool st
     ∧ sBufferPoolLeased st' = sBufferPoolLeased st
     ∧ gpuQueue st' = gpuQueue st)
  ∧ ∀ buf, buf ≠ buffer b →
      endUserCommandBuffer mainCore wait fuel core st buf = Aborted.
Proof.
  intros Hcore Hlen Hactive Hb Hdl Hcur Hmax Hfit.
  pose proof (lookup_lt_Some _ _ _ Hb) as Hlt.
  unfold endUserCommandBuffer, deref. rewrite Hactive, Hb. simpl.
  rewrite Hdl. simpl. split.
  - rewrite Z.eqb_refl. simpl.
    destruct (pad_result b (memory st) Hcur Hmax Hfit) as (m' & Hpad & Hm).
    unfold padCommandBufferAt, deref. rewrite Hb. simpl. rewrite Hpad. simpl.
    rewrite list_lookup_insert_eq by exact Hlt. simpl.
    unfold freeBufferObj, deref. simpl.
    rewrite list_lookup_insert_eq by exact Hlt. simpl.
    destruct (Nat.eqb_spec core mainCore) as [| _]; [congruence |].
    eexists. split; [reflexivity |]. simpl.
    unfold activeBuffer. simpl.
    rewrite list_lookup_insert_eq by exact Hlen.
    repeat split; auto.
  - intros buf Hbuf. destruct (Z.eqb_spec buf (buffer b)); [congruence |].
    reflexivity.
Qed.

Lemma endUserCommandBuffer_used_size_witness :
  (∃ st',
     endUserCommandBuffer 0%nat retireOldest 0 1%nat
       (mkState None false (emptyPool 0x1000 0x40000)
          [None; Some 0%nat; None] [mkBuffer true 0 0x9000 101 512 None]
          ∅ [] [])
       0x9000
     = Done (st', round_up 101 8)
     ∧ activeBuffer st' 1%nat = None
     ∧ sBufferItemPool st' = Some 0%nat
     ∧ (∀ x, memory st' !! x
             = if decide (0x9000 + 101 ≤ x < 0x9000 + round_up 101 8)
               then Some fillerWord else (∅ : gmap Z Z) !! x)
     ∧ sBufferPool st' = emptyPool 0x1000 0x40000
     ∧ sBufferPoolLeased st' = false
     ∧ gpuQueue st' = [])
  ∧ ∀ buf, buf ≠ 0x9000 →
      endUserCommandBuffer 0%nat retireOldest 0 1%nat
        (mkState None false (emptyPool 0x1000 0x40000)
           [None; Some 0%nat; None] [mkBuffer true 0 0x9000 101 512 None]
           ∅ [] [])
        buf = Aborted.
Proof.
  apply (endUserCommandBuffer_used_size 0%nat retireOldest 0 1%nat
           (mkState None false (emptyPool 0x1000 0x40000)
              [None; Some 0%nat; None] [mkBuffer true 0 0x9000 101 512 None]
              ∅ [] [])
           0%nat (mkBuffer true 0 0x9000 101 512 None)).
  - lia.
  - simpl; lia.
  - reflexivity.
  - reflexivity.
  - reflexivity.
  - simpl; lia.
  - simpl; lia.
  - vm_compute; discriminate.
Defined.

(** X13.  On a core other than the main graphics core with an empty slot,
    [beginUserCommandBuffer(buffer, size)] followed at once by
    [endUserCommandBuffer(buffer)] returns 0 used words and restores the
    slots of all cores; the memory, the ring, the lease flag and the GPU queue
    are untouched, and the descriptor that was used heads the free list. *)
Theorem begin_end_user_command_buffer (mainCore : nat)
    (wait : State → Outcome State) (fuel core : nat) (st : State)
    (l : list nat) (buf size : Z) :
  core ≠ mainCore →
  activeBuffer st core = None →
  (core < length (sActiveBuffer st))%nat →
  is_freelist (heap st) (sBufferItemPool st) l →
  0 ≤ size →
  ∃ st1 st2 cb,
    beginUserCommandBuffer mainCore core st buf size = Done st1
    ∧ activeBuffer st1 core = Some cb
    ∧ endUserCommandBuffer mainCore wait fuel core st1 buf = Done (st2, 0)
    ∧ sActiveBuffer st2 = sActiveBuffer st
    ∧ memory st2 = memory st
    ∧ sBufferPool st2 = sBufferPool st
    ∧ sBufferPoolLeased st2 = sBufferPoolLeased st
    ∧ gpuQueue st2 = gpuQueue st
    ∧ is_freelist (heap st2) (sBufferItemPool st2) (cb :: tail l).
Proof.
  intros Hcore Hactive Hlen Hlist Hsize.
  destruct (take_descriptor st l true 0 size buf Hlist)
    as (st' & cb & nxt & Hrun & Hcb & Hlist' & Hout & Hlt & _ & _ & _ & Hp
        & Hle & Hact & Hmem & Hq).
  apply bind_Done in Hrun as ([st0 cb0] & Halloc & Hrun).
  apply bind_Done in Hrun as (st0' & Hfill & Hrun).
  injection Hrun as -> ->.
  assert (activeBuffer st' core = None) as Hactive'.
  { unfold activeBuffer in *. rewrite Hact. exact Hactive. }
  assert (sActiveBuffer st !! core = Some None) as Hslot.
  { unfold activeBuffer in Hactive.
    destruct (lookup_lt_is_Some_2 _ _ Hlen) as [[c |] Hc]; rewrite Hc in *;
      simpl in Hactive; congruence. }
  destruct (push_on_freelist
              (set_memory
                 (store (set_sActiveBuffer st' core (Some cb)) cb
                    (mkBuffer true 0 buf 0 size nxt))
                 (memory st'))
              (tail l) cb (mkBuffer true 0 buf 0 size nxt))
    as (st2 & Hfree & Hlist2 & _ & Hp2 & Hle2 & Hact2 & Hmem2 & Hq2 & _).
  { simpl. apply is_freelist_insert; assumption. }
  { exact Hout. }
  { simpl. apply list_lookup_insert_eq. exact Hlt. }
  exists (set_sActiveBuffer st' core (Some cb)),
    (set_sActiveBuffer st2 core None), cb.
  split.
  { unfold beginUserCommandBuffer.
    destruct (Nat.eqb_spec core mainCore) as [| _]; [congruence |]. simpl.
    rewrite Halloc. simpl. rewrite Hfill. simpl. rewrite Hactive'.
    reflexivity. }
  assert (activeBuffer (set_sActiveBuffer st' core (Some cb)) core = Some cb)
    as Hopen.
  { unfold activeBuffer. simpl.
    rewrite list_lookup_insert_eq by (rewrite Hact; exact Hlen). reflexivity. }
  split; [exact Hopen |]. split.
  { unfold endUserCommandBuffer, deref. rewrite Hopen. simpl. rewrite Hcb.
    simpl. rewrite Z.eqb_refl. simpl.
    unfold padCommandBufferAt, deref. simpl. rewrite Hcb. simpl.
    unfold padCommandBuffer. simpl.
    change (align_up 0 (32 / 4)) with 0.
    destruct (Z.leb_spec 0 size); [| lia]. simpl.
    rewrite padLoop_stop by (simpl; change (u32 0) with 0; lia). simpl.
    rewrite list_lookup_insert_eq by exact Hlt. simpl.
    unfold set_curSize. simpl.
    rewrite Hfree. simpl.
    destruct (Nat.eqb_spec core mainCore) as [| _]; [congruence |].
    reflexivity. }
  simpl in *. split.
  { rewrite Hact2, Hact. rewrite list_insert_insert_eq.
    apply list_insert_id. exact Hslot. }
  repeat split; congruence.
Qed.

Lemma begin_end_user_command_buffer_witness :
  ∃ st1 st2 cb,
    beginUserCommandBuffer 0%nat 1%nat initialState 0x9000 512 = Done st1
    ∧ activeBuffer st1 1%nat = Some cb
    ∧ endUserCommandBuffer 0%nat retireOldest 0 1%nat st1 0x9000
      = Done (st2, 0)
    ∧ sActiveBuffer st2 = sActiveBuffer initialState
    ∧ memory st2 = memory initialState
    ∧ sBufferPool st2 = sBufferPool initialState
    ∧ sBufferPoolLeased st2 = sBufferPoolLeased initialState
    ∧ gpuQueue st2 = gpuQueue initialState
    ∧ is_freelist (heap st2) (sBufferItemPool st2) (cb :: tail []).
Proof.
  apply (begin_end_user_command_buffer 0%nat retireOldest 0 1%nat initialState
           [] 0x9000 512).
  - lia.
  - reflexivity.
  - simpl; lia.
  - simpl. constructor.
  - lia.
Defined.

(** X14.  [beginUserCommandBuffer] aborts on a core whose slot already
    holds a display list: on the main graphics core in the flush of the
    active buffer, on the other cores at the check of the slot. *)
Theorem beginUserCommandBuffer_session_open (mainCore core : nat) (st : State)
    (cb : nat) (b : Buffer) (buf size : Z) :
  activeBuffer st core = Some cb →
  heap st !! cb = Some b →
  displayList b = true →
  beginUserCommandBuffer mainCore core st buf size = Aborted.
Proof.
  intros Hactive Hb Hdl. unfold beginUserCommandBuffer.
  destruct (Nat.eqb_spec core mainCore) as [Heq | Hne].
  - unfold flushActiveCommandBuffer, deref. rewrite Hactive, Hb. simpl.
    rewrite Hdl. reflexivity.
  - simpl. unfold allocateBufferObj, deref.
    destruct (sBufferItemPool st) as [c |].
    + destruct (heap st !! c) as [bc |] eqn:Hc; [| reflexivity]. simpl.
      unfold fillBufferObj, deref. simpl. rewrite Hc. simpl.
      unfold activeBuffer in *. simpl. rewrite Hactive. reflexivity.
    + simpl. unfold fillBufferObj, deref. simpl.
      rewrite lookup_app_r by lia. rewrite Nat.sub_diag. simpl.
      unfold activeBuffer in *. simpl. rewrite Hactive. reflexivity.
Qed.

Lemma beginUserCommandBuffer_session_open_witness :
  beginUserCommandBuffer 0%nat 1%nat
    (mkState None false (emptyPool 0x1000 0x40000)
       [None; Some 0%nat; None] [mkBuffer true 0 0x9000 0 512 None] ∅ [] [])
    0xA000 256
  = Aborted.
Proof.
  apply (beginUserCommandBuffer_session_open 0%nat 1%nat
           (mkState None false (emptyPool 0x1000 0x40000)
              [None; Some 0%nat; None] [mkBuffer true 0 0x9000 0 512 None]
              ∅ [] [])
           0%nat (mkBuffer true 0 0x9000 0 512 None) 0xA000 256).
  - reflexivity.
  - reflexivity.
  - reflexivity.
Defined.

(** X15.  On a display list, [flushCommandBuffer] keeps the descriptor: it
    pads the old storage, hands the guest's callback the old buffer with the
    used and the needed sizes in bytes, and installs the storage the callback
    returns ([curSize = 0], [maxSize = newSize / 4]); the same descriptor is
    returned, and the slots, the ring, the lease flag, the GPU queue and the
    free list are not touched.  A callback that returns a null buffer or a
    size of 0 makes it abort. *)
Theorem flushCommandBuffer_display_list (mainCore : nat)
    (wait : State → Outcome State) (overrun : Z → Z → Z → Z * Z)
    (fuel core : nat) (st : State) (neededWords : Z) (cb : nat) (b : Buffer)
    (newList newSize : Z) :
  activeBuffer st core = Some cb →
  heap st !! cb = Some b →
  displayList b = true →
  0 ≤ curSize b →
  maxSize b < 2 ^ 32 →
  round_up (curSize b) 8 ≤ maxSize b →
  overrun (buffer b) (u32 (round_up (curSize b) 8 * 4)) (u32 (neededWords * 4))
  = (newList, newSize) →
  (newList = nullptr ∨ newSize = 0 →
   flushCommandBuffer mainCore wait overrun fuel core st neededWords = Aborted)
  ∧ (newList ≠ nullptr → newSize ≠ 0 →
     ∃ st',
       flushCommandBuffer mainCore wait overrun fuel core st neededWords
       = Done (st', Some cb)
       ∧ heap st'
         = <[cb := mkBuffer true (submitTime b) newList 0 (newSize / 4)
                     (next b)]> (heap st)
       ∧ (∀ x, memory st' !! x
               = if decide (buffer b + curSize b ≤ x
                            < buffer b + round_up (curSize b) 8)
                 then Some fillerWord else memory st !! x)
       ∧ sActiveBuffer st' = sActiveBuffer st
       ∧ sBufferPool st' = sBufferPool st
       ∧ sBufferPoolLeased st' = sBufferPoolLeased st
       ∧ gpuQueue st' = gpuQueue st
       ∧ sBufferItemPool st' = sBufferItemPool st).
Proof.
  intros Hactive Hb Hdl Hcur Hmax Hfit Hover.
  pose proof (lookup_lt_Some _ _ _ Hb) as Hlt.
  destruct (pad_result b (memory st) Hcur Hmax Hfit) as (m' & Hpad & Hm).
  unfold flushCommandBuffer, deref. rewrite Hactive, Hb. simpl.
  rewrite Hdl. unfold padCommandBufferAt, deref. rewrite Hb. simpl.
  rewrite Hpad. simpl.
  rewrite list_lookup_insert_eq by exact Hlt. simpl. rewrite Hover. split.
  - intros [-> | ->].
    + reflexivity.
    + rewrite orb_true_r. reflexivity.
  - intros HnewList HnewSize.
    destruct (Z.eqb_spec newList nullptr); [congruence |].
    destruct (Z.eqb_spec newSize 0); [congruence |]. simpl.
    eexists. split; [reflexivity |]. simpl.
    rewrite list_insert_insert_eq, Hdl. repeat split; auto.
Qed.

Lemma flushCommandBuffer_display_list_witness :
  (0xA000 = nullptr ∨ 4096 = 0 →
   flushCommandBuffer 0%nat retireOldest (λ _ _ _, (0xA000, 4096)) 0 1%nat
     (mkState None false (emptyPool 0x1000 0x40000)
        [None; Some 0%nat; None] [mkBuffer true 0 0x9000 6 0x200 None]
        ∅ [] [])
     600 = Aborted)
  ∧ (0xA000 ≠ nullptr → 4096 ≠ 0 →
     ∃ st',
       flushCommandBuffer 0%nat retireOldest (λ _ _ _, (0xA000, 4096)) 0 1%nat
         (mkState None false (emptyPool 0x1000 0x40000)
            [None; Some 0%nat; None] [mkBuffer true 0 0x9000 6 0x200 None]
            ∅ [] [])
         600
       = Done (st', Some 0%nat)
       ∧ heap st'
         = <[0%nat := mkBuffer true 0 0xA000 0 (4096 / 4) None]>
             [mkBuffer true 0 0x9000 6 0x200 None]
       ∧ (∀ x, memory st' !! x
               = if decide (0x9000 + 6 ≤ x < 0x9000 + round_up 6 8)
                 then Some fillerWord else (∅ : gmap Z Z) !! x)
       ∧ sActiveBuffer st' = [None; Some 0%nat; None]
       ∧ sBufferPool st' = emptyPool 0x1000 0x40000
       ∧ sBufferPoolLeased st' = false
       ∧ gpuQueue st' = []
       ∧ sBufferItemPool st' = None).
Proof.
  apply (flushCommandBuffer_display_list 0%nat retireOldest
           (λ _ _ _, (0xA000, 4096)) 0 1%nat
           (mkState None false (emptyPool 0x1000 0x40000)
              [None; Some 0%nat; None] [mkBuffer true 0 0x9000 6 0x200 None]
              ∅ [] [])
           600 0%nat (mkBuffer true 0 0x9000 6 0x200 None) 0xA000 4096).
  - reflexivity.
  - reflexivity.
  - reflexivity.
  - simpl; lia.
  - simpl; lia.
  - vm_compute; discriminate.
  - reflexivity.
Defined.

(** ** Retiring the oldest, returning the latest *)

Lemma retire_oldest p buf n live :
  pool_wf p ((buf, n) :: live) →
  ∃ p', freeToPool p buf n = Some p'
    ∧ pool_wf p' live
    ∧ (live ≠ [] → sBufferPoolHeadPtr p' = sBufferPoolHeadPtr p)
    ∧ sBufferPoolBase p' = sBufferPoolBase p
    ∧ sBufferPoolEnd p' = sBufferPoolEnd p.
Proof.
  intros Hwf.
  assert (∃ p', freeToPool p buf n = Some p'
            ∧ (sBufferPoolTailPtr p' ≠ nullptr →
               sBufferPoolHeadPtr p' = sBufferPoolHeadPtr p)
            ∧ sBufferPoolBase p' = sBufferPoolBase p
            ∧ sBufferPoolEnd p' = sBufferPoolEnd p) as (p' & Hfree & Hhead & Hbe).
  { destruct Hwf as [Hreg Hwf]. destruct p as [b e h t s].
    destruct Hreg as [Hb Hsz]. unfold_pool.
    destruct Hwf as [(_ & _ & _ & Hl) | [(Hs & Ht & Hh & Hti) | Hwrap]].
    - discriminate.
    - subst s. destruct Hti as (-> & Hn & Hti).
      pose proof (tiles_le _ _ _ Hti) as Hle.
      zcompare; simpl in *; try lia; eexists; (split; [reflexivity |]);
        simpl; split; auto; lia.
    - destruct Hwrap as (l1 & l2 & Hl & Hs & Hgap & Hht & Ht1 & Ht2).
      destruct l1 as [| [y k] l1]; simpl in Hl, Ht1.
      + subst l2. destruct Ht2 as (-> & Hn & Ht2).
        zcompare; simpl in *; try lia; eexists; (split; [reflexivity |]);
          simpl; split; auto; lia.
      + injection Hl as -> -> ->. destruct Ht1 as (-> & Hn & Ht1).
        pose proof (tiles_le _ _ _ Ht1) as Hle1.
        zcompare; simpl in *; try lia; eexists; (split; [reflexivity |]);
          simpl; split; auto; lia. }
  exists p'. split; [exact Hfree |].
  pose proof (freeToPool_wf _ _ _ _ _ Hwf Hfree) as Hwf'.
  split; [exact Hwf' |]. split; [| exact Hbe].
  intros Hne. apply Hhead.
  destruct Hwf' as [[Hb _] [(_ & _ & _ & Hl) | [(_ & Ht & _) | Hwrap]]].
  - contradiction.
  - unfold nullptr. lia.
  - destruct Hwrap as (l1 & l2 & _ & _ & _ & Hht & _ & Ht2).
    apply tiles_le in Ht2. unfold nullptr. lia.
Qed.

Lemma return_latest p live buf used original :
  pool_wf p (live ++ [(buf, original)]) →
  sBufferPoolHeadPtr p = buf + original →
  0 ≤ used ≤ original →
  ∃ p', returnToPool p buf used original = Some p'
    ∧ pool_wf p' (live ++ (if used =? 0 then [] else [(buf, used)]))
    ∧ sBufferPoolHeadPtr p' = buf + used
    ∧ sBufferPoolBase p' = sBufferPoolBase p
    ∧ sBufferPoolEnd p' = sBufferPoolEnd p.
Proof.
  intros Hwf Hhead Hused.
  assert (∃ p', returnToPool p buf used original = Some p'
            ∧ sBufferPoolHeadPtr p' = buf + used
            ∧ sBufferPoolBase p' = sBufferPoolBase p
            ∧ sBufferPoolEnd p' = sBufferPoolEnd p) as (p' & Hret & Hrest).
  { unfold returnToPool, set_head.
    zcompare; try lia; eexists; (split; [reflexivity |]); simpl;
      repeat split; congruence. }
  exists p'. split; [exact Hret |]. split; [| exact Hrest].
  eapply returnToPool_wf; eauto.
Qed.

(** X16.  On a consistent ring, [freeToPool] called for the oldest live
    allocation never aborts; it keeps the ring consistent for the remaining
    allocations, and as long as some remain it does not move the head. *)
Theorem freeToPool_oldest_succeeds (p : BufferPool) (buf n : Z)
    (live : list (Z * Z)) :
  pool_wf p ((buf, n) :: live) →
  ∃ p', freeToPool p buf n = Some p'
    ∧ pool_wf p' live
    ∧ (live ≠ [] → sBufferPoolHeadPtr p' = sBufferPoolHeadPtr p)
    ∧ sBufferPoolBase p' = sBufferPoolBase p
    ∧ sBufferPoolEnd p' = sBufferPoolEnd p.
Proof. apply retire_oldest. Qed.

Lemma freeToPool_oldest_succeeds_witness :
  ∃ p', freeToPool (mkBufferPool 0x1000 0x1300 0x1100 0x1100 0x80) 0x1100
          0x180 = Some p'
    ∧ pool_wf p' [(0x1000, 0x100)]
    ∧ ([(0x1000, 0x100)] ≠ [] →
       sBufferPoolHeadPtr p'
       = sBufferPoolHeadPtr (mkBufferPool 0x1000 0x1300 0x1100 0x1100 0x80))
    ∧ sBufferPoolBase p'
      = sBufferPoolBase (mkBufferPool 0x1000 0x1300 0x1100 0x1100 0x80)
    ∧ sBufferPoolEnd p'
      = sBufferPoolEnd (mkBufferPool 0x1000 0x1300 0x1100 0x1100 0x80).
Proof.
  apply (freeToPool_oldest_succeeds
           (mkBufferPool 0x1000 0x1300 0x1100 0x1100 0x80) 0x1100 0x180
           [(0x1000, 0x100)]).
  split; [unfold pool_region; simpl; lia |]. right; right.
  exists [(0x1100, 0x180)], [(0x1000, 0x100)]. simpl. repeat split; lia.
Defined.

(** ** The pool manager stays consistent *)

Lemma pool_ranges_ext h h' cbs :
  (∀ c, c ∈ cbs → h' !! c = h !! c) →
  pool_ranges h' cbs = pool_ranges h cbs.
Proof.
  induction cbs as [| c cbs IH]; intros Hsame; [reflexivity |].
  assert (pool_ranges h' cbs = pool_ranges h cbs) as IH'.
  { apply IH. intros c' Hc'. apply Hsame. constructor. exact Hc'. }
  unfold pool_ranges in *. simpl.
  rewrite (Hsame c) by constructor.
  destruct (h !! c) as [b |]; [destruct (displayList b) |]; simpl;
    first [exact IH' | f_equal; exact IH'].
Qed.

Lemma pool_ranges_insert h cb b cbs :
  cb ∉ cbs → pool_ranges (<[cb := b]> h) cbs = pool_ranges h cbs.
Proof.
  intros Hout. apply pool_ranges_ext. intros c Hc.
  apply list_lookup_insert_ne. intros ->. contradiction.
Qed.

Lemma pool_ranges_cons h cb cbs b :
  h !! cb = Some b →
  pool_ranges h (cb :: cbs)
  = (if displayList b then [] else [(buffer b, maxSize b)])
    ++ pool_ranges h cbs.
Proof.
  intros Hb. unfold pool_ranges. simpl. rewrite Hb.
  destruct (displayList b); reflexivity.
Qed.

Lemma pool_ranges_snoc h cb cbs b :
  h !! cb = Some b →
  pool_ranges h (cbs ++ [cb])
  = pool_ranges h cbs
    ++ (if displayList b then [] else [(buffer b, maxSize b)]).
Proof.
  intros Hb. unfold pool_ranges. rewrite omap_app. simpl. rewrite Hb.
  destruct (displayList b); reflexivity.
Qed.

(** The ring part of [freeCommandBuffer] on the oldest queued
    descriptor. *)
Lemma retire_ring_part (st : State) (b : Buffer) (rest : list (Z * Z)) :
  pool_wf (sBufferPool st)
    ((if displayList b then [] else [(buffer b, maxSize b)]) ++ rest) →
  ∃ p',
    (if negb (displayList b) then
       checked (freeToPool (sBufferPool st) (buffer b) (maxSize b))
       ≫= λ p, mret (set_sBufferPool st p)
     else mret st) = Done (set_sBufferPool st p')
    ∧ pool_wf p' rest
    ∧ (rest ≠ [] → sBufferPoolHeadPtr p' = sBufferPoolHeadPtr (sBufferPool st)).
Proof.
  intros Hwf. destruct (displayList b); simpl in *.
  - exists (sBufferPool st). split; [destruct st; reflexivity | auto].
  - destruct (retire_oldest _ _ _ _ Hwf) as (p' & Hfree & Hwf' & Hhead & _).
    exists p'. rewrite Hfree. simpl. auto.
Qed.

Lemma retire_consistent mainCore st fl cb q :
  sys_wf mainCore st fl →
  gpuQueue st = cb :: q →
  ∃ st', retireOldest st = Done st'
    ∧ sys_wf mainCore st' (cb :: fl)
    ∧ gpuQueue st' = q
    ∧ sBufferPoolLeased st' = sBufferPoolLeased st
    ∧ sActiveBuffer st' = sActiveBuffer st
    ∧ memory st' = memory st.
Proof.
  intros (Hfl & Hnd & Hq & Hlease) Hqueue.
  rewrite Hqueue in *. apply NoDup_cons in Hnd as [Hcbq Hndq].
  destruct (Hq cb ltac:(constructor)) as (Hcbfl & b & Hb & Hfull).
  pose proof (pool_ranges_cons _ _ q _ Hb) as Hranges.
  assert (∃ p',
    (if negb (displayList b) then
       checked (freeToPool (sBufferPool st) (buffer b) (maxSize b))
       ≫= λ p, mret (set_sBufferPool (set_gpuQueue st q) p)
     else mret (set_gpuQueue st q))
    = Done (set_sBufferPool (set_gpuQueue st q) p')
    ∧ (if sBufferPoolLeased st then
         ∃ cb0 b0,
           activeBuffer st mainCore = Some cb0
           ∧ heap st !! cb0 = Some b0
           ∧ displayList b0 = false
           ∧ 0 ≤ curSize b0 ≤ maxSize b0
           ∧ (cb0 ∉ fl)
           ∧ (cb0 ∉ cb :: q)
           ∧ sBufferPoolHeadPtr p' = buffer b0 + maxSize b0
           ∧ pool_wf p' (pool_ranges (heap st) q ++ [(buffer b0, maxSize b0)])
       else pool_wf p' (pool_ranges (heap st) q))) as (p' & Hring & Hlease').
  { destruct (sBufferPoolLeased st).
    - destruct Hlease as (cb0 & b0 & Ha0 & Hb0 & Hdl0 & Hcur0 & Hfl0 & Hq0
                          & Hhead0 & Hwf0).
      rewrite Hranges, <- app_assoc in Hwf0.
      destruct (retire_ring_part (set_gpuQueue st q) b _ Hwf0)
        as (p' & Hrun & Hwf' & Hhead').
      exists p'. split; [exact Hrun |].
      exists cb0, b0.
      do 6 (split; [assumption |]). split; [| exact Hwf'].
      rewrite Hhead'; [exact Hhead0 |].
      destruct (pool_ranges (heap st) q); discriminate.
    - rewrite Hranges in Hlease.
      destruct (retire_ring_part (set_gpuQueue st q) b _ Hlease)
        as (p' & Hrun & Hwf' & _).
      exists p'. split; [exact Hrun | exact Hwf']. }
  destruct (push_on_freelist (set_sBufferPool (set_gpuQueue st q) p') fl cb b)
    as (st2 & Hfree & Hfl2 & Hheap2 & Hp2 & Hle2 & Hact2 & Hmem2 & Hq2 & _);
    [exact Hfl | exact Hcbfl | exact Hb |].
  simpl in *.
  exists st2. split.
  { unfold retireOldest. rewrite Hqueue.
    unfold freeCommandBuffer, deref. simpl. rewrite Hb. simpl.
    rewrite Hfull, Z.eqb_refl. simpl. rewrite Hring. simpl. exact Hfree. }
  assert (pool_ranges (heap st2) q = pool_ranges (heap st) q) as Hsame.
  { rewrite Hheap2. apply pool_ranges_insert. exact Hcbq. }
  split; [| repeat split; congruence].
  split; [exact Hfl2 |]. split; [rewrite Hq2; exact Hndq |]. split.
  { rewrite Hq2. intros c Hc.
    destruct (Hq c ltac:(constructor; exact Hc)) as (Hcfl & bc & Hbc & Hfc).
    assert (c ≠ cb) as Hne by (intros ->; contradiction).
    split; [apply not_elem_of_cons; auto |].
    exists bc. rewrite Hheap2, list_lookup_insert_ne by congruence. auto. }
  rewrite Hle2, Hq2, Hp2, Hsame.
  destruct (sBufferPoolLeased st); [| exact Hlease'].
  destruct Hlease' as (cb0 & b0 & Ha0 & Hb0 & Hdl0 & Hcur0 & Hfl0 & Hq0
                       & Hhead0 & Hwf0).
  apply not_elem_of_cons in Hq0 as [Hne0 Hq0].
  exists cb0, b0. unfold activeBuffer in *. rewrite Hact2.
  rewrite Hheap2, list_lookup_insert_ne by congruence.
  do 4 (split; [assumption |]).
  split; [apply not_elem_of_cons; auto |].
  do 2 (split; [assumption |]). exact Hwf0.
Qed.

Lemma flush_consistent mainCore st fl :
  sys_wf mainCore st fl →
  sBufferPoolLeased st = true →
  ∃ st' cb b,
    activeBuffer st mainCore = Some cb
    ∧ heap st !! cb = Some b
    ∧ flushActiveCommandBuffer mainCore st = Done st'
    ∧ sys_wf mainCore st' (if curSize b =? 0 then cb :: fl else fl)
    ∧ gpuQueue st' = gpuQueue st ++ (if curSize b =? 0 then [] else [cb])
    ∧ sBufferPoolLeased st' = false
    ∧ memory st' = memory st.
Proof.
  intros (Hfl & Hnd & Hq & Hlease) Hleased. rewrite Hleased in Hlease.
  destruct Hlease as (cb & b & Hactive & Hb & Hdl & Hcur & Hcbfl & Hcbq
                      & Hhead & Hwf).
  pose proof (lookup_lt_Some _ _ _ Hb) as Hlt.
  destruct (return_latest _ _ _ (curSize b) _ Hwf Hhead Hcur)
    as (p' & Hret & Hwf' & _).
  assert (∀ c, c ∈ gpuQueue st → c ≠ cb) as Hne.
  { intros c Hc ->. contradiction. }
  unfold flushActiveCommandBuffer, deref. rewrite Hactive, Hb. simpl.
  rewrite Hdl, Hleased. simpl. rewrite Hret. simpl.
  destruct (Z.eqb_spec (curSize b) 0) as [Hzero | Hnonzero].
  - destruct (push_on_freelist
                (store (set_sBufferPool (set_sBufferPoolLeased st false) p')
                   cb (set_maxSize b (curSize b)))
                fl cb (set_maxSize b (curSize b)))
      as (st3 & Hfree & Hfl3 & Hheap3 & Hp3 & Hle3 & Hact3 & Hmem3 & Hq3 & _).
    { simpl. apply is_freelist_insert; assumption. }
    { exact Hcbfl. }
    { simpl. apply list_lookup_insert_eq. exact Hlt. }
    simpl in *. rewrite Hfree. simpl.
    exists (set_sActiveBuffer st3 mainCore None), cb, b.
    do 3 (split; [first [reflexivity | assumption] |]). simpl.
    replace (curSize b =? 0) with true
      by (symmetry; apply Z.eqb_eq; exact Hzero).
    rewrite Hq3, Hle3, Hmem3, app_nil_r.
    split; [| auto].
    assert (pool_ranges (heap st3) (gpuQueue st)
            = pool_ranges (heap st) (gpuQueue st)) as Hsame.
    { rewrite Hheap3, !pool_ranges_insert by exact Hcbq. reflexivity. }
    split; [exact Hfl3 |]. simpl. rewrite Hq3, Hle3, Hp3, Hsame.
    split; [exact Hnd |]. split; [| rewrite app_nil_r in Hwf'; exact Hwf'].
    intros c Hc. destruct (Hq c Hc) as (Hcfl & bc & Hbc & Hfc).
    pose proof (Hne c Hc).
    split; [apply not_elem_of_cons; auto |].
    exists bc. rewrite Hheap3, !list_lookup_insert_ne by congruence. auto.
  - simpl.
    exists (set_sActiveBuffer
              (queueCommandBuffer
                 (store (set_sBufferPool (set_sBufferPoolLeased st false) p')
                    cb (set_maxSize b (curSize b))) cb) mainCore None), cb, b.
    do 3 (split; [first [reflexivity | assumption] |]). simpl.
    replace (curSize b =? 0) with false
      by (symmetry; apply Z.eqb_neq; exact Hnonzero).
    split; [| auto].
    split; [simpl; apply is_freelist_insert; assumption |]. simpl.
    split.
    { apply NoDup_app. split; [exact Hnd |]. split.
      - intros c Hc Hin. apply list_elem_of_singleton in Hin. subst c.
        contradiction.
      - apply NoDup_singleton. }
    split.
    { intros c Hc. apply elem_of_app in Hc as [Hc | Hc].
      - destruct (Hq c Hc) as (Hcfl & bc & Hbc & Hfc). pose proof (Hne c Hc).
        split; [exact Hcfl |]. exists bc.
        rewrite list_lookup_insert_ne by congruence. auto.
      - apply list_elem_of_singleton in Hc. subst c. split; [exact Hcbfl |].
        exists (set_maxSize b (curSize b)).
        rewrite list_lookup_insert_eq by exact Hlt. auto. }
    rewrite (pool_ranges_snoc _ _ _ (set_maxSize b (curSize b)))
      by (apply list_lookup_insert_eq; exact Hlt).
    simpl. rewrite Hdl, pool_ranges_insert by exact Hcbq. exact Hwf'.
Qed.

Lemma elem_of_tail {A} (x : A) (l : list A) : x ∈ tail l → x ∈ l.
Proof. destruct l; simpl; [auto | intros H; constructor; exact H]. Qed.

Lemma lease_consistent mainCore (wait : State → Outcome State) fuel st fl size :
  sys_wf mainCore st fl →
  sBufferPoolLeased st = false →
  ¬ ring_full (sBufferPool st) (pool_ranges (heap st) (gpuQueue st)) →
  (mainCore < length (sActiveBuffer st))%nat →
  Z.max 0x100 size
  ≤ sBufferPoolEnd (sBufferPool st) - sBufferPoolBase (sBufferPool st) →
  (∃ n, allocateFromPool (sBufferPool st) size 0
        = Some (sBufferPool st, nullptr, n))
  ∨ ∃ st' cb,
      allocateCommandBuffer mainCore wait fuel mainCore st size
      = Done (st', Some cb)
      ∧ sys_wf mainCore (set_sActiveBuffer st' mainCore (Some cb)) (tail fl)
      ∧ sBufferPoolLeased st' = true
      ∧ gpuQueue st' = gpuQueue st
      ∧ memory st' = memory st.
Proof.
  intros (Hfl & Hnd & Hq & Hwf) Hleased Hfull Hcore Hsize.
  rewrite Hleased in Hwf.
  destruct (allocateFromPool (sBufferPool st) size 0)
    as [[[p' buf] n] |] eqn:Halloc.
  2: { apply (too_large_iff _ _ _ _ Hwf) in Halloc. lia. }
  destruct (Z.eq_dec buf nullptr) as [-> | Hbuf].
  { left. exists n.
    rewrite (allocateFromPool_no_room _ _ _ _ _ _ Hwf Halloc). reflexivity. }
  right.
  pose proof (allocateFromPool_wf _ _ _ _ _ _ _ Hwf Hfull Halloc Hbuf) as Hwf'.
  pose proof (granted_buffer _ _ _ _ _ _ _ Hwf Halloc Hbuf)
    as (Hn & _ & _ & Hhead & _).
  assert (allocateLoop wait fuel st size 0
          = Done (set_sBufferPool st p', buf, n)) as Hloop.
  { destruct fuel; simpl; rewrite Halloc;
      destruct (Z.eqb_spec buf nullptr); congruence. }
  destruct (take_descriptor (set_sBufferPool st p') fl false 0 n buf Hfl)
    as (st2 & cb & nxt & Hrun & Hcb & Hfl2 & Hout & Hlt & Hsame & _ & Hwhere
        & Hp2 & Hle2 & Hact2 & Hmem2 & Hq2).
  apply bind_Done in Hrun as ([st1 cb1] & Hobj & Hrun).
  apply bind_Done in Hrun as (st1' & Hfill & Hrun).
  injection Hrun as -> ->. simpl in *.
  assert (∀ c, c ∈ gpuQueue st → c ≠ cb ∧ heap st2 !! c = heap st !! c)
    as Hqueue.
  { intros c Hc. destruct (Hq c Hc) as (Hcfl & bc & Hbc & _).
    pose proof (lookup_lt_Some _ _ _ Hbc) as Hclt.
    assert (c ≠ cb) as Hne.
    { intros ->. destruct Hwhere as [Hin | ->]; [contradiction | lia]. }
    split; [exact Hne | apply Hsame; assumption]. }
  exists (set_sBufferPoolLeased st2 true), cb. split.
  { unfold allocateCommandBuffer. rewrite Hleased, Nat.eqb_refl. simpl.
    rewrite Hloop. simpl. rewrite Hobj. simpl. rewrite Hfill. reflexivity. }
  split; [| simpl; auto].
  split; [exact Hfl2 |]. simpl. rewrite Hq2.
  split; [exact Hnd |]. split.
  { intros c Hc. destruct (Hq c Hc) as (Hcfl & bc & Hbc & Hfc).
    destruct (Hqueue c Hc) as [_ Hsamec].
    split; [intros Hin; apply Hcfl, elem_of_tail, Hin |].
    exists bc. rewrite Hsamec. auto. }
  exists cb, (mkBuffer false 0 buf 0 n nxt).
  unfold activeBuffer. simpl.
  rewrite list_lookup_insert_eq by (rewrite Hact2; exact Hcore).
  split; [reflexivity |]. split; [exact Hcb |]. split; [reflexivity |].
  split; [simpl; lia |]. split; [exact Hout |].
  split; [intros Hin; destruct (Hqueue cb Hin) as [Hne _]; congruence |].
  simpl. rewrite Hp2. split; [exact Hhead |].
  rewrite (pool_ranges_ext (heap st)) by (intros c Hc; apply Hqueue, Hc).
  exact Hwf'.
Qed.

Lemma init_consistent mainCore (wait : State → Outcome State) fuel st fl
    base size :
  is_freelist (heap st) (sBufferItemPool st) fl →
  gpuQueue st = [] →
  sBufferPoolLeased st = false →
  sBufferPoolSkipped (sBufferPool st) = 0 →
  0 < base →
  0x100 ≤ size < 2 ^ 32 →
  (mainCore < length (sActiveBuffer st))%nat →
  ∃ st', initCommandBufferPool mainCore wait fuel mainCore st base size
         = Done st'
    ∧ sys_wf mainCore st' (tail fl)
    ∧ sBufferPoolLeased st' = true
    ∧ gpuQueue st' = []
    ∧ memory st' = memory st.
Proof.
  intros Hfl Hq Hleased Hskip Hbase Hsize Hcore.
  assert (sBufferPool (resetPoolPointers st base size) = emptyPool base size)
    as Hpool.
  { unfold resetPoolPointers, emptyPool. simpl. rewrite Hskip. reflexivity. }
  assert (gpuQueue (resetPoolPointers st base size) = []) as Hq0
    by exact Hq.
  assert (sBufferPoolLeased (resetPoolPointers st base size) = false) as Hle0
    by exact Hleased.
  assert (sys_wf mainCore (resetPoolPointers st base size) fl) as Hsys.
  { split; [exact Hfl |]. rewrite Hq0, Hle0, Hpool.
    split; [apply NoDup_nil_2 |]. split.
    - intros c Hc. apply elem_of_nil in Hc. contradiction.
    - apply pool_wf_empty; lia. }
  destruct (lease_consistent mainCore wait fuel _ fl 0x100 Hsys)
    as [(n & Hnil) | (st' & cb & Hrun & Hsys' & Hle' & Hq' & Hmem')].
  - exact Hle0.
  - rewrite Hq0, Hpool. unfold ring_full. simpl. tauto.
  - exact Hcore.
  - rewrite Hpool. simpl. lia.
  - rewrite Hpool in Hnil. unfold emptyPool in Hnil.
    rewrite allocateFromPool_fresh in Hnil by lia.
    injection Hnil as _ Hb _. unfold nullptr in Hb. lia.
  - exists (set_sActiveBuffer st' mainCore (Some cb)). split.
    { unfold initCommandBufferPool. rewrite Nat.eqb_refl. simpl.
      fold (resetPoolPointers st base size). rewrite Hrun. reflexivity. }
    split; [exact Hsys' |]. rewrite Hq0 in Hq'. simpl. auto.
Qed.

Example flush_then_lease :
  flushActiveCommandBuffer 0%nat leasedState = Done flushedState
  ∧ flushCommandBuffer 0%nat retireOldest (λ _ _ _, (nullptr, 0)) 0 0%nat
      leasedState 0x100
    = Done (queuedState, Some 1%nat).
Proof. split; vm_compute; reflexivity. Qed.

Example sys_wf_leasedState : sys_wf 0%nat leasedState [].
Proof.
  split; [constructor |]. simpl. split; [apply NoDup_nil_2 |]. split.
  - intros c Hc. apply elem_of_nil in Hc. contradiction.
  - exists 0%nat, (mkBuffer false 0 0x1000 101 0x20000 None). simpl.
    do 3 (split; [reflexivity |]). split; [lia |].
    do 2 (split; [apply not_elem_of_nil |]). split; [reflexivity |].
    split; [unfold pool_region; simpl; lia |]. right; left. simpl.
    repeat split; lia.
Qed.

Example sys_wf_flushedState : sys_wf 0%nat flushedState [].
Proof.
  split; [constructor |]. simpl.
  split; [apply NoDup_singleton |]. split.
  - intros c Hc. apply list_elem_of_singleton in Hc. subst c.
    split; [apply not_elem_of_nil |]. eexists. split; reflexivity.
  - split; [unfold pool_region; simpl; lia |]. right; left. simpl.
    repeat split; lia.
Qed.

Example sys_wf_queuedState : sys_wf 0%nat queuedState [].
Proof.
  split; [constructor |]. simpl.
  split; [apply NoDup_singleton |]. split.
  - intros c Hc. apply list_elem_of_singleton in Hc. subst c.
    split; [apply not_elem_of_nil |]. eexists. split; reflexivity.
  - exists 1%nat, (mkBuffer false 0 0x1065 0 0x20000 None). simpl.
    do 3 (split; [reflexivity |]). split; [lia |].
    split; [apply not_elem_of_nil |].
    split; [intros Hin; apply list_elem_of_singleton in Hin; discriminate |].
    split; [reflexivity |].
    split; [unfold pool_region; simpl; lia |]. right; left. simpl.
    repeat split; lia.
Qed.

(** X17.  In a consistent pool manager, the retirement of the oldest queued
    buffer ([freeCommandBuffer] on the front of the GPU queue) never aborts:
    the in-order check of [freeToPool] and the [curSize = maxSize] check
    pass, the descriptor moves to the front of the free list, and the pool
    manager stays consistent; the lease, the slots and the memory are not
    touched. *)
Theorem retireOldest_consistent (mainCore : nat) (st : State) (fl : list nat)
    (cb : nat) (q : list nat) :
  sys_wf mainCore st fl →
  gpuQueue st = cb :: q →
  ∃ st', retireOldest st = Done st'
    ∧ sys_wf mainCore st' (cb :: fl)
    ∧ gpuQueue st' = q
    ∧ sBufferPoolLeased st' = sBufferPoolLeased st
    ∧ sActiveBuffer st' = sActiveBuffer st
    ∧ memory st' = memory st.
Proof. apply retire_consistent. Qed.

Lemma retireOldest_consistent_witness :
  ∃ st', retireOldest queuedState = Done st'
    ∧ sys_wf 0%nat st' [0%nat]
    ∧ gpuQueue st' = []
    ∧ sBufferPoolLeased st' = sBufferPoolLeased queuedState
    ∧ sActiveBuffer st' = sActiveBuffer queuedState
    ∧ memory st' = memory queuedState.
Proof.
  apply (retireOldest_consistent 0%nat queuedState [] 0%nat []).
  - exact sys_wf_queuedState.
  - reflexivity.
Defined.

(** X18.  In a consistent pool manager with a lease out,
    [flushActiveCommandBuffer] on the main core never aborts: the head check
    of [returnToPool] passes; a lease with words in it joins the end of the
    GPU queue with [maxSize = curSize], an untouched lease goes to the free
    list instead; the lease flag is cleared, the memory is not written, and
    the pool manager stays consistent. *)
Theorem flushActiveCommandBuffer_consistent (mainCore : nat) (st : State)
    (fl : list nat) :
  sys_wf mainCore st fl →
  sBufferPoolLeased st = true →
  ∃ st' cb b,
    activeBuffer st mainCore = Some cb
    ∧ heap st !! cb = Some b
    ∧ flushActiveCommandBuffer mainCore st = Done st'
    ∧ sys_wf mainCore st' (if curSize b =? 0 then cb :: fl else fl)
    ∧ gpuQueue st' = gpuQueue st ++ (if curSize b =? 0 then [] else [cb])
    ∧ sBufferPoolLeased st' = false
    ∧ memory st' = memory st.
Proof. apply flush_consistent. Qed.

Lemma flushActiveCommandBuffer_consistent_witness :
  ∃ st' cb b,
    activeBuffer leasedState 0%nat = Some cb
    ∧ heap leasedState !! cb = Some b
    ∧ flushActiveCommandBuffer 0%nat leasedState = Done st'
    ∧ sys_wf 0%nat st' (if curSize b =? 0 then [cb] else [])
    ∧ gpuQueue st'
      = gpuQueue leasedState ++ (if curSize b =? 0 then [] else [cb])
    ∧ sBufferPoolLeased st' = false
    ∧ memory st' = memory leasedState.
Proof.
  apply (flushActiveCommandBuffer_consistent 0%nat leasedState []).
  - exact sys_wf_leasedState.
  - reflexivity.
Defined.

(** X19.  In a consistent pool manager without a lease, whose ring is
    not full, [allocateCommandBuffer] on the main core with a request that
    fits the pool does not abort: either the ring has no room, the first
    [allocateFromPool] returns [nullptr] and the call waits, or the call
    returns a descriptor at its first attempt, and with that descriptor
    installed in the main core's slot the pool manager is consistent again,
    with the lease out. *)
Theorem allocateCommandBuffer_consistent (mainCore : nat)
    (wait : State → Outcome State) (fuel : nat) (st : State) (fl : list nat)
    (size : Z) :
  sys_wf mainCore st fl →
  sBufferPoolLeased st = false →
  ¬ ring_full (sBufferPool st) (pool_ranges (heap st) (gpuQueue st)) →
  (mainCore < length (sActiveBuffer st))%nat →
  Z.max 0x100 size
  ≤ sBufferPoolEnd (sBufferPool st) - sBufferPoolBase (sBufferPool st) →
  (∃ n, allocateFromPool (sBufferPool st) size 0
        = Some (sBufferPool st, nullptr, n))
  ∨ ∃ st' cb,
      allocateCommandBuffer mainCore wait fuel mainCore st size
      = Done (st', Some cb)
      ∧ sys_wf mainCore (set_sActiveBuffer st' mainCore (Some cb)) (tail fl)
      ∧ sBufferPoolLeased st' = true
      ∧ gpuQueue st' = gpuQueue st
      ∧ memory st' = memory st.
Proof. apply lease_consistent. Qed.

Lemma allocateCommandBuffer_consistent_witness :
  (∃ n, allocateFromPool (sBufferPool flushedState) 0x100 0
        = Some (sBufferPool flushedState, nullptr, n))
  ∨ ∃ st' cb,
      allocateCommandBuffer 0%nat retireOldest 0 0%nat flushedState 0x100
      = Done (st', Some cb)
      ∧ sys_wf 0%nat (set_sActiveBuffer st' 0%nat (Some cb)) (tail [])
      ∧ sBufferPoolLeased st' = true
      ∧ gpuQueue st' = gpuQueue flushedState
      ∧ memory st' = memory flushedState.
Proof.
  apply (allocateCommandBuffer_consistent 0%nat retireOldest 0 flushedState []
           0x100).
  - exact sys_wf_flushedState.
  - reflexivity.
  - unfold ring_full. simpl. lia.
  - simpl; lia.
  - simpl; lia.
Defined.

(** X20.  [initCommandBufferPool] on the main core, called with no lease
    out, nothing queued, [skipped = 0], a non-null base and at least 0x100
    words, returns without waiting and leaves a consistent pool manager with
    the first lease out. *)
Theorem initCommandBufferPool_consistent (mainCore : nat)
    (wait : State → Outcome State) (fuel : nat) (st : State) (fl : list nat)
    (base size : Z) :
  is_freelist (heap st) (sBufferItemPool st) fl →
  gpuQueue st = [] →
  sBufferPoolLeased st = false →
  sBufferPoolSkipped (sBufferPool st) = 0 →
  0 < base →
  0x100 ≤ size < 2 ^ 32 →
  (mainCore < length (sActiveBuffer st))%nat →
  ∃ st', initCommandBufferPool mainCore wait fuel mainCore st base size
         = Done st'
    ∧ sys_wf mainCore st' (tail fl)
    ∧ sBufferPoolLeased st' = true
    ∧ gpuQueue st' = []
    ∧ memory st' = memory st.
Proof. apply init_consistent. Qed.

Lemma initCommandBufferPool_consistent_witness :
  ∃ st', initCommandBufferPool 0%nat retireOldest 0 0%nat initialState 0x1000
           0x40000 = Done st'
    ∧ sys_wf 0%nat st' (tail [])
    ∧ sBufferPoolLeased st' = true
    ∧ gpuQueue st' = []
    ∧ memory st' = memory initialState.
Proof.
  apply (initCommandBufferPool_consistent 0%nat retireOldest 0 initialState []
           0x1000 0x40000).
  - simpl. constructor.
  - reflexivity.
  - reflexivity.
  - reflexivity.
  - lia.
  - lia.
  - simpl; lia.
Defined.

Lemma ndm_run_app (cs ds : list ndm.Call) (g : bool) :
  ndm.run (cs ++ ds) g = ndm.run ds (ndm.run cs g).
Proof. unfold ndm.run. apply fold_left_app. Qed.

Lemma ndm_run_keeps (cs : list ndm.Call) (g : bool) :
  Forall (λ c, c ≠ ndm.CallInitialize ∧ c ≠ ndm.CallFinalize) cs →
  ndm.run cs g = g.
Proof.
  induction 1 as [| c cs [Hi Hf] _ IH]; [reflexivity |].
  change (ndm.run (c :: cs) g) with (ndm.run cs (ndm.call c g)).
  destruct c; try congruence; exact IH.
Qed.

(** X21.  The nn::ndm flag is not a reference count: whatever calls came
    before, and however many of them were [Initialize], one [Finalize]
    followed only by [IsInitialized] and [EnableResumeDaemons] calls leaves
    [IsInitialized] false; and one [Initialize] followed only by such calls
    leaves it true. *)
Theorem ndm_flag_follows_last_call (pre post : list ndm.Call) (g : bool) :
  Forall (λ c, c ≠ ndm.CallInitialize ∧ c ≠ ndm.CallFinalize) post →
  ndm.IsInitialized (ndm.run (pre ++ ndm.CallFinalize :: post) g) = false
  ∧ ndm.IsInitialized (ndm.run (pre ++ ndm.CallInitialize :: post) g) = true.
Proof.
  intros Hpost. unfold ndm.IsInitialized. rewrite !ndm_run_app.
  change (ndm.run (ndm.CallFinalize :: post) (ndm.run pre g))
    with (ndm.run post false).
  change (ndm.run (ndm.CallInitialize :: post) (ndm.run pre g))
    with (ndm.run post true).
  rewrite !ndm_run_keeps by exact Hpost. split; reflexivity.
Qed.

Lemma ndm_flag_follows_last_call_witness :
  ndm.IsInitialized
    (ndm.run ([ndm.CallInitialize; ndm.CallInitialize]
              ++ ndm.CallFinalize :: [ndm.CallEnableResumeDaemons])
       ndm.gInitialised0) = false
  ∧ ndm.IsInitialized
      (ndm.run ([ndm.CallInitialize; ndm.CallInitialize]
                ++ ndm.CallInitialize :: [ndm.CallEnableResumeDaemons])
         ndm.gInitialised0) = true.
Proof.
  apply (ndm_flag_follows_last_call
           [ndm.CallInitialize; ndm.CallInitialize]
           [ndm.CallEnableResumeDaemons] ndm.gInitialised0).
  repeat constructor; discriminate.
Defined.
